(** * Dependency crawler: version ranking, manifest extraction, paging

    A shallow embedding of the crawler's two source files:
    - the registry side: [parsePythonPackageVersion],
      [greaterThanPythonPackageVersion] and the best-release loop of
      [queryDependencyPyPI];
    - the organisation side: [getRepos], [getRepoDependencies],
      [mergeDependenciesLists] and the two loops of [scrapeOrganisation]
      (paging through the repository cursors, then the batched fetch).

    JavaScript values are modelled as the code uses them.  A number is an
    integer or NaN.  A string is a sequence of code units, here those
    below 256.  A [Map] or a [Set] is a list in insertion order.  A thrown
    exception is the [Throw] case of a completion.  The upstream services
    are parameters: the paging source is a state with a query function and
    a clock, the dependency source a function from requests to settled
    results, and the order in which concurrent requests settle is an
    arbitrary permutation of the requests issued. *)

From Stdlib Require Import ZArith List String Ascii Bool Lia QArith Permutation.
Import ListNotations.
Close Scope Q_scope.
Local Open Scope string_scope.
Local Open Scope list_scope.

(** ** JavaScript primitives used by the sources *)
Module Js.

(** A number as [parseInt] and the comparisons see it.  The embedding keeps
    the mathematical integer; it is exact for the integers a double holds
    exactly. *)
Inductive number : Type :=
| NaN : number
| Num : Z -> number.

(** [a > b] on numbers: false as soon as one side is NaN. *)
Definition gt (a b : number) : bool :=
  match a, b with
  | Num x, Num y => (y <? x)%Z
  | _, _ => false
  end.

(** [a != b] on numbers: true as soon as one side is NaN. *)
Definition neq (a b : number) : bool :=
  match a, b with
  | Num x, Num y => negb (x =? y)%Z
  | _, _ => true
  end.

(** What a cursor slot or a cursor argument can hold. *)
Inductive value : Type :=
| Null : value
| Undefined : value
| Str : string -> value.

(** What is thrown: a [TypeError] (a property read off [undefined]), the
    [Error] of the paging loop, whose message carries a number of seconds
    (kept here as the exact quotient), or the rejection of an upstream
    call. *)
Inductive error : Type :=
| TypeError : error
| RateLimitReached : Q -> error
| Rejected : string -> error.

(** Result of running a piece of code that may throw. *)
Inductive completion (A : Type) : Type :=
| Normal : A -> completion A
| Throw : error -> completion A.
Arguments Normal {A} _.
Arguments Throw {A} _.

Definition bind {A B : Type} (c : completion A) (k : A -> completion B) : completion B :=
  match c with
  | Normal a => k a
  | Throw e => Throw e
  end.

Notation "x <- c ;; k" := (bind c (fun x => k))
  (at level 61, c at next level, right associativity).

(** *** Strings *)

(** [s.split(sep)] for a non-empty separator: [skip] counts the code units
    of a matched separator still to be passed over, [cur] is the piece
    being built. *)
Fixpoint split_go (sep : string) (skip : nat) (cur s : string) : list string :=
  match s with
  | EmptyString => [cur]
  | String c s' =>
      match skip with
      | S k => split_go sep k cur s'
      | O =>
          if prefix sep s
          then cur :: split_go sep (String.length sep - 1) "" s'
          else split_go sep 0 (cur ++ String c "") s'
      end
  end.

Definition split (sep : string) (s : string) : list string :=
  split_go sep 0 "" s.

(** [s.split(sep, limit)]: the array is cut at [limit] pieces. *)
Definition split_limit (sep : string) (limit : nat) (s : string) : list string :=
  firstn limit (split sep s).

(** [s[i]]: the code unit at [i], [None] for [undefined]. *)
Definition charAt (i : nat) (s : string) : option string :=
  match get i s with
  | Some c => Some (String c "")
  | None => None
  end.

(** [s.substring(from)] *)
Definition substring_from (from : nat) (s : string) : string :=
  substring from (String.length s - from) s.

(** [s.endsWith(suffix)] *)
Definition endsWith (s suffix : string) : bool :=
  (String.length suffix <=? String.length s)%nat
  && (substring (String.length s - String.length suffix) (String.length suffix) s =? suffix).

(** *** parseInt *)

(** White space and line terminators among the code units below 256. *)
Definition isWhiteSpace (c : ascii) : bool :=
  let n := nat_of_ascii c in
  ((9 <=? n) && (n <=? 13) || (n =? 32) || (n =? 160))%nat.

Fixpoint trimStart (s : string) : string :=
  match s with
  | String c s' => if isWhiteSpace c then trimStart s' else s
  | EmptyString => EmptyString
  end.

Definition digitValue (c : ascii) : option Z :=
  let n := nat_of_ascii c in
  if ((48 <=? n) && (n <=? 57))%nat then Some (Z.of_nat (n - 48))
  else if ((97 <=? n) && (n <=? 122))%nat then Some (Z.of_nat (n - 87))
  else if ((65 <=? n) && (n <=? 90))%nat then Some (Z.of_nat (n - 55))
  else None.

(** The longest prefix of radix-[R] digits, read as an integer; [acc] is
    [None] until a digit has been read. *)
Fixpoint parseDigits (R : Z) (acc : option Z) (s : string) : option Z :=
  match s with
  | EmptyString => acc
  | String c s' =>
      match digitValue c with
      | Some d =>
          if (d <? R)%Z
          then parseDigits R (Some (match acc with Some a => a * R + d | None => d end)%Z) s'
          else acc
      | None => acc
      end
  end.

(** [parseInt(s)] with no radix argument: leading white space, a sign, a
    [0x] prefix switching to radix 16, then the digits.  The digits are
    read as the mathematical integer, which is the number the code gets
    for values up to 2^53 in magnitude; above, the code holds the nearest
    double. *)
Definition parseInt (s : string) : number :=
  let s1 := trimStart s in
  let '(sign, s2) :=
    match s1 with
    | String "-" r => ((-1)%Z, r)
    | String "+" r => (1%Z, r)
    | _ => (1%Z, s1)
    end in
  let '(R, s3) :=
    match s2 with
    | String "0" (String "x" r) => (16%Z, r)
    | String "0" (String "X" r) => (16%Z, r)
    | _ => (10%Z, s2)
    end in
  match parseDigits R None s3 with
  | Some n => Num (sign * n)
  | None => NaN
  end.

(** *** Map and Set, in insertion order *)

Section MapOps.
Context {V : Type}.

Definition map_t : Type := list (string * V).

Fixpoint map_get (k : string) (m : map_t) : option V :=
  match m with
  | [] => None
  | (k', v) :: m' => if k' =? k then Some v else map_get k m'
  end.

Definition map_has (k : string) (m : map_t) : bool :=
  match map_get k m with Some _ => true | None => false end.

(** [m.set(k, v)]: an existing key keeps its place. *)
Fixpoint map_set (k : string) (v : V) (m : map_t) : map_t :=
  match m with
  | [] => [(k, v)]
  | (k', v') :: m' => if k' =? k then (k', v) :: m' else (k', v') :: map_set k v m'
  end.

(** Mutation of the value stored under [k], as in [m.get(k).push(x)];
    [None] when [m.get(k)] is [undefined]. *)
Fixpoint map_modify (k : string) (f : V -> V) (m : map_t) : option map_t :=
  match m with
  | [] => None
  | (k', v') :: m' =>
      if k' =? k then Some ((k', f v') :: m')
      else match map_modify k f m' with
           | Some m'' => Some ((k', v') :: m'')
           | None => None
           end
  end.

Definition map_keys (m : map_t) : list string := List.map fst m.
End MapOps.
Arguments map_t : clear implicits.

Abbreviation set_t := (list string).

Definition set_has (x : string) (s : set_t) : bool :=
  existsb (String.eqb x) s.

(** [s.add(x)] *)
Definition set_add (x : string) (s : set_t) : set_t :=
  if set_has x s then s else s ++ [x].

End Js.

(** ** The registry side: PyPI release versions *)
Module PackageAPI.
Import Js.

Record PythonPackageVersion : Type := {
  epoch : number;
  first : number;
  rest : list number;
  isPrerelease : bool
}.

(** One pass of the loop over [parts.slice(1)]: the text handed to
    [parseInt] and whether the pass sets [isPrerelease]. *)
Definition parsePart (part : string) : string * bool :=
  let alpha := split_limit "a" 2 part in
  let beta := split_limit "b" 2 part in
  let releaseCandidate := split_limit "rc" 2 part in
  if substring 0 3 part =? "dev" then (substring_from 3 part, true)
  else if substring 0 4 part =? "post" then (substring_from 4 part, false)
  else if (List.length alpha =? 2)%nat then (nth 0 alpha "", true)
  else if (List.length beta =? 2)%nat then (nth 0 beta "", true)
  else if (List.length releaseCandidate =? 2)%nat then (nth 0 releaseCandidate "", true)
  else (part, false).

Fixpoint parseRest (parts : list string) (version : PythonPackageVersion)
  : PythonPackageVersion :=
  match parts with
  | [] => version
  | part :: parts' =>
      let '(part', pre) := parsePart part in
      parseRest parts'
        {| epoch := epoch version;
           first := first version;
           rest := rest version ++ [parseInt part'];
           isPrerelease := if pre then true else isPrerelease version |}
  end.

Definition parsePythonPackageVersion (versionString : string)
  : completion PythonPackageVersion :=
  let epochPart := split_limit "!" 2 versionString in
  let '(epoch0, versionString') :=
    if (List.length epochPart =? 2)%nat
    then (parseInt (nth 0 epochPart ""), charAt 1 versionString)
    else (Num 0, Some versionString) in
  match versionString' with
  | None => Throw TypeError
  | Some vs =>
      let parts := split "." vs in
      Normal (parseRest (tl parts)
                {| epoch := epoch0;
                   first := parseInt (hd "" parts);
                   rest := [];
                   isPrerelease := false |})
  end.

(** The [for] loop over the common indices of the two [rest] arrays;
    [Some r] when the loop body returns [r]. *)
Fixpoint restLoop (indices : list nat) (a b : list number) : option bool :=
  match indices with
  | [] => None
  | i :: indices' =>
      if neq (nth i a NaN) (nth i b NaN)
      then Some (gt (nth i a NaN) (nth i b NaN))
      else restLoop indices' a b
  end.

Definition greaterThanPythonPackageVersion (a b : PythonPackageVersion) : bool :=
  if isPrerelease a && negb (isPrerelease b) then false
  else if negb (isPrerelease a) && isPrerelease b then true
  else if gt (first a) (first b) then true
  else
    match restLoop (seq 0 (Nat.min (List.length (rest a)) (List.length (rest b))))
                   (rest a) (rest b) with
    | Some r => r
    | None => (List.length (rest b) <? List.length (rest a))%nat
    end.

Definition sentinel : PythonPackageVersion :=
  {| epoch := Num 0; first := Num 0; rest := []; isPrerelease := true |}.

(** The loop of [queryDependencyPyPI] over the keys of [data.releases], in
    the order [for ... in] enumerates them. *)
Fixpoint bestVersionLoop (releases : list string)
    (bestVersion : string) (bestVersionObject : PythonPackageVersion)
  : completion (string * PythonPackageVersion) :=
  match releases with
  | [] => Normal (bestVersion, bestVersionObject)
  | release :: releases' =>
      version <- parsePythonPackageVersion release ;;
      if greaterThanPythonPackageVersion version bestVersionObject
      then bestVersionLoop releases' release version
      else bestVersionLoop releases' bestVersion bestVersionObject
  end.

(** [queryDependencyPyPI] once the registry has answered: the version it
    returns for the release keys [releases]. *)
Definition queryDependencyPyPI (releases : list string) : completion string :=
  best <- bestVersionLoop releases "0" sentinel ;;
  Normal (fst best).

End PackageAPI.

(** ** The organisation side *)
Module Index.
Import Js.

(** *** Shapes read from the dependency-graph response *)

Record DependencyGraphDependency : Type := {
  packageName : string;
  requirements : string
}.

(** [file.node] of one entry of [dependencyGraphManifests.edges]. *)
Record ManifestNode : Type := {
  blobPath : string;
  totalCount : Z;
  dependencyNodes : list DependencyGraphDependency
}.

(** [edges] and [nodes] are two arrays read side by side; [nodes] holds
    the [filename] of each entry. *)
Record DependencyGraphManifests : Type := {
  edges : list ManifestNode;
  nodes : list string
}.

Record UpperBranchManifest : Type := {
  repoName : string;
  url : string;
  repoIsArchived : bool;
  dependencyGraphManifests : DependencyGraphManifests
}.

Record BranchManifest : Type := {
  repository : UpperBranchManifest
}.

Record RepoEdge : Type := {
  mainBranch : option BranchManifest;
  masterBranch : option BranchManifest
}.

Definition GraphResponse : Type := list RepoEdge.

(** *** getRepos *)

Fixpoint getRepos (allRepos : list RepoEdge) : list BranchManifest :=
  match allRepos with
  | [] => []
  | repo :: allRepos' =>
      let ref := match mainBranch repo with
                 | Some b => Some b
                 | None => masterBranch repo
                 end in
      match ref with
      | None => getRepos allRepos'
      | Some b => b :: getRepos allRepos'
      end
  end.

(** *** getRepoDependencies *)

Definition packageManagers : list (string * list string) :=
  [ ("NPM", ["package.json"]); ("PYPI", ["requirements.txt"]) ].

Record BlobPathDeps : Type := {
  subPath : string;
  bpBlobPath : string;
  bpVersion : string;
  bpDependencies : list DependencyGraphDependency
}.

Definition blobPathDeps (subPath blobPath version : string)
    (deps : list DependencyGraphDependency) : BlobPathDeps :=
  {| subPath := subPath; bpBlobPath := blobPath; bpVersion := version;
     bpDependencies := deps |}.

Definition PackageMap : Type := map_t (list BlobPathDeps).

Record RepoDepObj : Type := {
  manifest : UpperBranchManifest;
  packageMap : PackageMap
}.

(** [packageMap.get(name).push(x)] *)
Definition pushUnder (name : string) (x : BlobPathDeps) (m : PackageMap)
  : completion PackageMap :=
  match map_modify name (fun l => l ++ [x]) m with
  | Some m' => Normal m'
  | None => Throw TypeError
  end.

(** The body of the innermost loop, for one file, one manager and one of
    its extensions. *)
Definition extensionStep (file : ManifestNode) (subPath managerName ext : string)
    (m : PackageMap) : completion PackageMap :=
  if endsWith subPath ext then
    let version := "" in
    let depCount := totalCount file in
    let m1 := if negb (map_has managerName m) then map_set managerName [] m else m in
    if (0 <? depCount)%Z
    then pushUnder managerName
           (blobPathDeps subPath (blobPath file) version (dependencyNodes file)) m1
    else pushUnder managerName
           (blobPathDeps subPath (blobPath file) version []) m1
  else Normal m.

Fixpoint extensionLoop (file : ManifestNode) (subPath managerName : string)
    (exts : list string) (m : PackageMap) : completion PackageMap :=
  match exts with
  | [] => Normal m
  | ext :: exts' =>
      m' <- extensionStep file subPath managerName ext m ;;
      extensionLoop file subPath managerName exts' m'
  end.

Fixpoint managerLoop (file : ManifestNode) (subPath : string)
    (managers : list (string * list string)) (m : PackageMap)
  : completion PackageMap :=
  match managers with
  | [] => Normal m
  | (managerName, exts) :: managers' =>
      m' <- extensionLoop file subPath managerName exts m ;;
      managerLoop file subPath managers' m'
  end.

(** The loop over [files]; [index] walks [nodes] alongside, and reading
    [filename] off a missing entry throws. *)
Fixpoint fileLoop (files : list ManifestNode) (filenames : list string)
    (index : nat) (m : PackageMap) : completion PackageMap :=
  match files with
  | [] => Normal m
  | file :: files' =>
      match nth_error filenames index with
      | None => Throw TypeError
      | Some subPath =>
          m' <- managerLoop file subPath packageManagers m ;;
          fileLoop files' filenames (S index) m'
      end
  end.

Definition getRepoDependencies (repo : BranchManifest) : completion RepoDepObj :=
  let depGraphManifests := dependencyGraphManifests (repository repo) in
  m <- fileLoop (edges depGraphManifests) (nodes depGraphManifests) 0 [] ;;
  Normal {| manifest := repository repo; packageMap := m |}.

Fixpoint getAllRepoDeps (repoList : list BranchManifest) : completion (list RepoDepObj) :=
  match repoList with
  | [] => Normal []
  | repo :: repoList' =>
      deps <- getRepoDependencies repo ;;
      all <- getAllRepoDeps repoList' ;;
      Normal (if (0 <? List.length (packageMap deps))%nat then deps :: all else all)
  end.

(** *** mergeDependenciesLists *)

Record Repository : Type := {
  name : string;
  version : string;
  link : string;
  isArchived : bool;
  dependencies : map_t string
}.

Definition DepSets : Type := map_t set_t.

(** The innermost loop, over the entries of [repo.dependencies]. *)
Fixpoint dependencyLoop (packageManager : string) (entries : list (string * string))
    (deps : DepSets) : completion DepSets :=
  match entries with
  | [] => Normal deps
  | (depName, _) :: entries' =>
      let deps1 := if negb (map_has packageManager deps)
                   then map_set packageManager [] deps else deps in
      match map_modify packageManager (set_add depName) deps1 with
      | None => Throw TypeError
      | Some deps2 => dependencyLoop packageManager entries' deps2
      end
  end.

Fixpoint repoLoop (packageManager : string) (repos : list Repository)
    (deps : DepSets) : completion DepSets :=
  match repos with
  | [] => Normal deps
  | repo :: repos' =>
      deps' <- dependencyLoop packageManager (dependencies repo) deps ;;
      repoLoop packageManager repos' deps'
  end.

Fixpoint managerReposLoop (managerRepos : map_t (list Repository))
    (deps : DepSets) : completion DepSets :=
  match managerRepos with
  | [] => Normal deps
  | (packageManager, repos) :: managerRepos' =>
      deps' <- repoLoop packageManager repos deps ;;
      managerReposLoop managerRepos' deps'
  end.

(** The second loop: every set becomes an array, in the set's order. *)
Fixpoint toArrays (deps : DepSets) (managerDeps : map_t (list string))
  : map_t (list string) :=
  match deps with
  | [] => managerDeps
  | (key, value) :: deps' => toArrays deps' (map_set key value managerDeps)
  end.

Definition mergeDependenciesLists (managerRepos : map_t (list Repository))
  : completion (map_t (list string)) :=
  deps <- managerReposLoop managerRepos [] ;;
  Normal (toArrays deps []).

(** *** scrapeOrganisation: paging through the repository cursors *)

Record RateLimit : Type := {
  remaining : Z;
  (** [new Date(resetAt).getTime()], in milliseconds *)
  resetAt : Z
}.

Record OrgRepos : Type := {
  edgeCursors : list string;
  hasNextPage : bool;
  endCursor : value;
  rateLimit : RateLimit
}.

Definition MINIMUM_GITHUB_POINTS : Z := 10.

Section Pager.
(** The upstream source: its state, how it answers one page request for
    a cursor argument, and what [Date.now()] reads (milliseconds). *)
Variable World : Type.
Variable queryRepositories : World -> value -> completion OrgRepos * World.
Variable now : World -> Z.

(** The variables of the [do ... while] loop, with the log of the cursor
    arguments sent so far. *)
Record PagerState : Type := {
  world : World;
  repoCursors : list value;
  repoCursor : value;
  sent : list value
}.

Inductive outcome : Type :=
| Returned : PagerState -> outcome
| Thrown : error -> PagerState -> outcome
| OutOfFuel : PagerState -> outcome.

Definition initial (w : World) : PagerState :=
  {| world := w; repoCursors := []; repoCursor := Null; sent := [] |}.

(** One pass of the loop body per unit of fuel.  The call passes the
    literal [null] as its cursor argument; [repoCursor] is assigned and
    not read. *)
Fixpoint paginate (fuel : nat) (s : PagerState) : outcome :=
  match fuel with
  | O => OutOfFuel s
  | S fuel' =>
      let '(answer, w') := queryRepositories (world s) Null in
      let sent' := sent s ++ [Null] in
      match answer with
      | Throw e =>
          Thrown e {| world := w'; repoCursors := repoCursors s;
                      repoCursor := repoCursor s; sent := sent' |}
      | Normal response =>
          let s' := {| world := w';
                       repoCursors := repoCursors s ++ List.map Str (edgeCursors response);
                       repoCursor := if hasNextPage response
                                     then endCursor response else repoCursor s;
                       sent := sent' |} in
          if (remaining (rateLimit response) <? MINIMUM_GITHUB_POINTS)%Z then
            let diff_seconds :=
              Qmake (Z.abs (resetAt (rateLimit response) - now w')) 1000 in
            Thrown (RateLimitReached diff_seconds) s'
          else if hasNextPage response then paginate fuel' s'
          else Returned s'
      end
  end.
End Pager.

Arguments world {World} _.
Arguments repoCursors {World} _.
Arguments repoCursor {World} _.
Arguments sent {World} _.
Arguments Returned {World} _.
Arguments Thrown {World} _ _.
Arguments OutOfFuel {World} _.

(** *** scrapeOrganisation: the batched fetch *)

(** [repoCursors[0] = null]; an empty array grows to one slot. *)
Definition overwriteFirst (repoCursors : list value) : list value :=
  match repoCursors with
  | [] => [Null]
  | _ :: tail => Null :: tail
  end.

(** [a[i]] *)
Definition index (a : list value) (i : nat) : value :=
  nth i a Undefined.

Definition numOfPages : nat := 3.

(** One call of [queryDependencies]: the loop counter it was issued at and
    the cursor argument it carries. *)
Record Request : Type := {
  curCursorCopy : nat;
  cursorArg : value
}.

(** The [for] loop issuing the requests, from [curCursor] on; [None] when
    the fuel runs out before the loop condition fails. *)
Fixpoint issueLoop (fuel : nat) (curCursor : nat) (repoCursors : list value)
  : option (list Request) :=
  if (curCursor <? List.length repoCursors)%nat then
    match fuel with
    | O => None
    | S fuel' =>
        match issueLoop fuel' (curCursor + numOfPages) repoCursors with
        | Some later =>
            Some ({| curCursorCopy := curCursor;
                     cursorArg := index repoCursors curCursor |} :: later)
        | None => None
        end
    end
  else Some [].

Definition issueRequests (repoCursors : list value) : option (list Request) :=
  issueLoop (List.length repoCursors) 0 repoCursors.

Record Responses : Type := {
  successfullResponses : list GraphResponse;
  failedResponses : list value
}.

Section Settle.
(** How the upstream settles each request. *)
Variable queryDependencies : Request -> completion GraphResponse.
Variable repoCursors : list value.

(** The [then] or [catch] callback of one settled request. *)
Definition settleOne (acc : Responses) (rq : Request) : Responses :=
  match queryDependencies rq with
  | Normal r =>
      {| successfullResponses := successfullResponses acc ++ [r];
         failedResponses := failedResponses acc |}
  | Throw _ =>
      {| successfullResponses := successfullResponses acc;
         failedResponses := failedResponses acc ++ [index repoCursors (curCursorCopy rq)] |}
  end.

(** The callbacks run one at a time, in the order the requests settle. *)
Definition settleAll (order : list Request) : Responses :=
  fold_left settleOne order
    {| successfullResponses := []; failedResponses := [] |}.
End Settle.

(** The cursor overwrite and the batched fetch that follow the paging
    loop; [order] is the order in which the issued requests settle. *)
Definition fetchBatches (queryDependencies : Request -> completion GraphResponse)
    (collected : list value) (order : list Request) : Responses :=
  settleAll queryDependencies (overwriteFirst collected) order.

End Index.

(** ** Reference notions the properties are stated with *)
Module Spec.
Import Js PackageAPI Index.

(** Whether the code unit [c] occurs in [s]. *)
Fixpoint occurs (c : ascii) (s : string) : bool :=
  match s with
  | EmptyString => false
  | String c' s' => if Ascii.eqb c' c then true else occurs c s'
  end.

(** The ranking of components as the specification words it: the first
    differing pair decides; on an exact prefix the longer sequence wins. *)
Fixpoint spec_componentsGreater (a b : list number) : bool :=
  match a, b with
  | x :: a', y :: b' => if neq x y then gt x y else spec_componentsGreater a' b'
  | _ :: _, [] => true
  | [], _ => false
  end.

(** The ranking of two versions of equal prerelease status as the
    specification words it: majors first, components only on equal majors. *)
Definition spec_greaterThan (a b : PythonPackageVersion) : bool :=
  gt (first a) (first b)
  || (negb (neq (first a) (first b)) && spec_componentsGreater (rest a) (rest b)).


(** The entry [x] is in the bucket of [managerName]. *)
Definition recorded (managerName : string) (x : BlobPathDeps) (m : PackageMap) : Prop :=
  exists entries, map_get managerName m = Some entries /\ In x entries.

(** The file name matches no extension of the static table. *)
Definition matchesNoExtension (subPath : string) : Prop :=
  forall managerName exts ext,
    In (managerName, exts) packageManagers -> In ext exts ->
    endsWith subPath ext = false.

(** A repository, given by its manifest files and their names. *)
Definition repoOf (base : UpperBranchManifest) (files : list ManifestNode)
    (filenames : list string) : BranchManifest :=
  {| repository :=
       {| repoName := repoName base; url := url base;
          repoIsArchived := repoIsArchived base;
          dependencyGraphManifests := {| edges := files; nodes := filenames |} |} |}.

(** The package map [getRepoDependencies] builds for [repo]. *)
Definition packageMapOf (repo : BranchManifest) : completion PackageMap :=
  obj <- getRepoDependencies repo ;; Normal (packageMap obj).

(** The name [x] is listed under the manager [k]. *)
Definition member (k x : string) (d : map_t (list string)) : Prop :=
  exists names, map_get k d = Some names /\ In x names.

(** Some repository in the bucket of manager [k] declares a dependency
    on the package [x]. *)
Definition declares (managerRepos : map_t (list Repository)) (k x : string) : Prop :=
  exists repos repo,
    In (k, repos) managerRepos /\ In repo repos
    /\ In x (map_keys (dependencies repo)).

(** Two per-manager lists hold the same names, each once. *)
Definition sameNames (a b : option (list string)) : Prop :=
  match a, b with
  | Some l1, Some l2 => Permutation l1 l2
  | None, None => True
  | _, _ => False
  end.

(** The sets built so far: distinct keys, and under each key a non-empty
    set without repetition. *)
Definition wellFormed (d : DepSets) : Prop :=
  NoDup (map_keys d)
  /\ forall k names, map_get k d = Some names -> NoDup names /\ names <> [].

(** Number of groups of [numOfPages] cursors covering [n] cursors. *)
Definition groupCount (n : nat) : nat := (n + numOfPages - 1) / numOfPages.

(** The request anchored at position [i] of the cursor array. *)
Definition requestAt (repoCursors : list value) (i : nat) : Request :=
  {| curCursorCopy := i; cursorArg := index repoCursors i |}.

(** The responses of the requests that are fulfilled, in issue order. *)
Definition fulfilled (queryDependencies : Request -> completion GraphResponse)
    (requests : list Request) : list GraphResponse :=
  flat_map (fun rq => match queryDependencies rq with
                      | Normal r => [r]
                      | Throw _ => []
                      end) requests.

(** The anchor cursors of the requests that reject, in issue order. *)
Definition rejectedAnchors (queryDependencies : Request -> completion GraphResponse)
    (requests : list Request) : list value :=
  flat_map (fun rq => match queryDependencies rq with
                      | Normal _ => []
                      | Throw _ => [cursorArg rq]
                      end) requests.

End Spec.

(** ** Sources to run the paging loop against *)
Module Sources.
Import Js Index.

Definition plenty : RateLimit := {| remaining := 5000; resetAt := 0 |}.

Definition page1 : OrgRepos :=
  {| edgeCursors := ["c1"; "c2"]; hasNextPage := true; endCursor := Str "c2";
     rateLimit := plenty |}.

Definition page2 : OrgRepos :=
  {| edgeCursors := ["c3"]; hasNextPage := false; endCursor := Str "c3";
     rateLimit := plenty |}.

(** A source addressed by cursor, as the upstream is: no cursor gives the
    first page, the first page's end cursor gives the second and last
    page. *)
Definition twoPages (w : unit) (cursor : value) : completion OrgRepos * unit :=
  match cursor with
  | Null => (Normal page1, w)
  | Str "c2" => (Normal page2, w)
  | _ => (Throw (Rejected "unknown cursor"), w)
  end.

(** A source that plays a script whatever cursor it is asked for: each
    entry is the page answered and the clock reading that follows it. *)
Definition Script : Type := list (OrgRepos * Z).

Definition ScriptWorld : Type := (Z * Script)%type.

Definition scriptQuery (w : ScriptWorld) (cursor : value)
  : completion OrgRepos * ScriptWorld :=
  match snd w with
  | [] => (Throw (Rejected "end of script"), w)
  | (page, t) :: later => (Normal page, (t, later))
  end.

Definition scriptNow (w : ScriptWorld) : Z := fst w.

(** The paging loop of [scrapeOrganisation] run on a script. *)
Definition listCursors (fuel : nat) (start : Z) (script : Script) : outcome ScriptWorld :=
  paginate ScriptWorld scriptQuery scriptNow fuel (initial ScriptWorld (start, script)).

Definition cursorsOf (script : Script) : list value :=
  List.map Str (flat_map (fun p => edgeCursors (fst p)) script).

(** The page has enough quota left and announces a next page. *)
Definition continues (p : OrgRepos * Z) : Prop :=
  (MINIMUM_GITHUB_POINTS <= remaining (rateLimit (fst p)))%Z
  /\ hasNextPage (fst p) = true.

(** A page reporting too little quota, with a reset time in the past of
    the clock reading that follows it. *)
Definition lowPage : OrgRepos :=
  {| edgeCursors := ["c4"]; hasNextPage := true; endCursor := Str "c4";
     rateLimit := {| remaining := 5; resetAt := 1000 |} |}.

(** *** Sample repositories *)

Definition emptyManifest : ManifestNode :=
  {| blobPath := "/org/app/blob/main/package.json"; totalCount := 0;
     dependencyNodes := [] |}.

Definition readme : ManifestNode :=
  {| blobPath := "/org/app/blob/main/README.md"; totalCount := 0;
     dependencyNodes := [] |}.

Definition appBase : UpperBranchManifest :=
  {| repoName := "app"; url := "https://example.org/org/app";
     repoIsArchived := false;
     dependencyGraphManifests := {| edges := []; nodes := [] |} |}.

Definition leftPadUser : Repository :=
  {| name := "app(package.json)"; version := ""; link := "https://example.org/org/app";
     isArchived := false;
     dependencies := [("left-pad", "^1.0.0"); ("lodash", "^4.0.0")] |}.

Definition sevenCursors : list value :=
  [Null; Str "k1"; Str "k2"; Str "k3"; Str "k4"; Str "k5"; Str "k6"].

(** The upstream rejecting exactly the request anchored at position 3. *)
Definition secondRejects (rq : Request) : completion GraphResponse :=
  if (curCursorCopy rq =? 3)%nat then Throw (Rejected "unreadable") else Normal [].

End Sources.

(** ** The registry side: resolving a list of names *)
Module Resolve.
Import Js PackageAPI.

(** [Promise.all]: the promises settle in [order] (positions in the
    array); the first one to reject decides the rejection, otherwise the
    values come back in the order of the array. *)
Fixpoint firstRejection {A : Type} (order : list nat) (outcomes : list (completion A))
  : option error :=
  match order with
  | [] => None
  | i :: order' =>
      match nth_error outcomes i with
      | Some (Throw e) => Some e
      | _ => firstRejection order' outcomes
      end
  end.

Fixpoint fulfilledValues {A : Type} (outcomes : list (completion A)) : list A :=
  match outcomes with
  | [] => []
  | Normal a :: outcomes' => a :: fulfilledValues outcomes'
  | Throw _ :: outcomes' => fulfilledValues outcomes'
  end.

Definition promiseAll {A : Type} (outcomes : list (completion A)) (order : list nat)
  : completion (list A) :=
  match firstRejection order outcomes with
  | Some e => Throw e
  | None => Normal (fulfilledValues outcomes)
  end.

(** The loop filling [depMap] from the settled list. *)
Fixpoint fillDepMap (depList : list (string * string)) (depMap : map_t string)
  : map_t string :=
  match depList with
  | [] => depMap
  | (depName, data) :: depList' => fillDepMap depList' (map_set depName data depMap)
  end.

Section Lookups.
(** The registries: what the manifest lookup answers for a package (its
    current version), and what the release lookup answers (the keys of
    [releases], as enumerated).  The wait for a token that precedes each
    lookup only delays it. *)
Variable getPackageManifest : string -> completion string.
Variable fetchReleases : string -> completion (list string).

Definition queryDependenyNpm (dependency : string) : completion (string * string) :=
  manifestVersion <- getPackageManifest dependency ;;
  Normal (dependency, manifestVersion).

(** [queryDependencyPyPI] for one name: the release lookup, then the
    selection among the release keys. *)
Definition queryDependencyPyPIFor (dependency : string) : completion (string * string) :=
  releases <- fetchReleases dependency ;;
  bestVersion <- queryDependencyPyPI releases ;;
  Normal (dependency, bestVersion).

Definition getDependenciesNpm (dependencies : list string) (order : list nat)
  : completion (map_t string) :=
  depList <- promiseAll (List.map queryDependenyNpm dependencies) order ;;
  Normal (fillDepMap depList []).

Definition getDependenciesPyPI (dependencies : list string) (order : list nat)
  : completion (map_t string) :=
  depList <- promiseAll (List.map queryDependencyPyPIFor dependencies) order ;;
  Normal (fillDepMap depList []).
End Lookups.

End Resolve.

(** ** The organisation side: from the fetched responses to the document *)
Module Scrape.
Import Js Index Resolve.

(** The loop [deps.set(dep.packageName, dep.requirements)]. *)
Fixpoint dependencyMap (ds : list DependencyGraphDependency) (deps : map_t string)
  : map_t string :=
  match ds with
  | [] => deps
  | dep :: ds' => dependencyMap ds' (map_set (packageName dep) (requirements dep) deps)
  end.

(** The record [rep] built for one manifest file of a repository. *)
Definition repositoryEntry (manifest : UpperBranchManifest) (subRepo : BlobPathDeps)
  : Repository :=
  {| name := (repoName manifest ++ "(" ++ subPath subRepo ++ ")")%string;
     version := bpVersion subRepo;
     link := url manifest;
     isArchived := repoIsArchived manifest;
     dependencies := dependencyMap (bpDependencies subRepo) [] |}.

Definition AllDeps : Type := map_t (list Repository).

(** [allDeps.get(packageManager).push(rep)], after the key is ensured. *)
Definition pushRepository (packageManager : string) (rep : Repository) (allDeps : AllDeps)
  : completion AllDeps :=
  let allDeps1 := if negb (map_has packageManager allDeps)
                  then map_set packageManager [] allDeps else allDeps in
  match map_modify packageManager (fun l => l ++ [rep]) allDeps1 with
  | Some allDeps2 => Normal allDeps2
  | None => Throw TypeError
  end.

Fixpoint subRepoLoop (manifest : UpperBranchManifest) (packageManager : string)
    (depList : list BlobPathDeps) (allDeps : AllDeps) : completion AllDeps :=
  match depList with
  | [] => Normal allDeps
  | subRepo :: depList' =>
      allDeps' <- pushRepository packageManager (repositoryEntry manifest subRepo) allDeps ;;
      subRepoLoop manifest packageManager depList' allDeps'
  end.

Fixpoint packageMapLoop (manifest : UpperBranchManifest) (entries : PackageMap)
    (allDeps : AllDeps) : completion AllDeps :=
  match entries with
  | [] => Normal allDeps
  | (packageManager, depList) :: entries' =>
      allDeps' <- subRepoLoop manifest packageManager depList allDeps ;;
      packageMapLoop manifest entries' allDeps'
  end.

Fixpoint allRepoDepsLoop (allRepoDeps : list RepoDepObj) (allDeps : AllDeps)
  : completion AllDeps :=
  match allRepoDeps with
  | [] => Normal allDeps
  | repo :: allRepoDeps' =>
      allDeps' <- packageMapLoop (manifest repo) (packageMap repo) allDeps ;;
      allRepoDepsLoop allRepoDeps' allDeps'
  end.

(** The loop of [scrapeOrganisation] over the successful responses (its
    first inner loop only logs). *)
Fixpoint responsesLoop (responses : list GraphResponse) (allDeps : AllDeps)
  : completion AllDeps :=
  match responses with
  | [] => Normal allDeps
  | response :: responses' =>
      allRepoDeps <- getAllRepoDeps (getRepos response) ;;
      allDeps' <- allRepoDepsLoop allRepoDeps allDeps ;;
      responsesLoop responses' allDeps'
  end.

Definition collectDependencies (successfullResponses : list GraphResponse)
  : completion AllDeps :=
  responsesLoop successfullResponses [].

(** The double quote, for the keys of the document. *)
Definition dq : string := String "034"%char "".

Section Main.
(** What [main] takes from outside: the two registries, the order in
    which their lookups settle, and the tree printer of the output
    module, which receives [null] ([None]) for a manager that was not
    resolved. *)
Variable getPackageManifest : string -> completion string.
Variable fetchReleases : string -> completion (list string).
Variable npmOrder pypiOrder : list nat.
Variable generateDependencyTree : list Repository -> option (map_t string) -> string.

(** [main] from the value of [scrapeOrganisation] on: the text handed to
    [writeFile].  The npm names are resolved before the PyPI names; the
    wait on the token queue and the timing only log. *)
Definition mainDocument (allDeps : AllDeps) : completion string :=
  packageDeps <- mergeDependenciesLists allDeps ;;
  npmDepDataMap <-
    match map_get "NPM" packageDeps with
    | Some names =>
        m <- getDependenciesNpm getPackageManifest names npmOrder ;; Normal (Some m)
    | None => Normal None
    end ;;
  pypiDepDataMap <-
    match map_get "PYPI" packageDeps with
    | Some names =>
        m <- getDependenciesPyPI fetchReleases names pypiOrder ;; Normal (Some m)
    | None => Normal None
    end ;;
  Normal ("{"
          ++ dq ++ "npm" ++ dq ++ ": ["
          ++ match map_get "NPM" allDeps with
             | None => ""
             | Some repos => generateDependencyTree repos npmDepDataMap
             end
          ++ "], "
          ++ dq ++ "PyPI" ++ dq ++ ": ["
          ++ match map_get "PYPI" allDeps with
             | None => ""
             | Some repos => generateDependencyTree repos pypiDepDataMap
             end
          ++ "]"
          ++ "}")%string.
End Main.

End Scrape.

(** ** Further reference notions *)
Module Grammar.
Import Js PackageAPI Index Scrape.

Definition isDigit (c : ascii) : bool :=
  let n := nat_of_ascii c in ((48 <=? n) && (n <=? 57))%nat.

Fixpoint allDigits (s : string) : bool :=
  match s with
  | EmptyString => true
  | String c s' => isDigit c && allDigits s'
  end.

(** A non-empty string of decimal digits. *)
Definition numeral (s : string) : Prop := s <> "" /\ allDigits s = true.

(** The number a string of decimal digits denotes. *)
Fixpoint decimalFrom (acc : Z) (s : string) : Z :=
  match s with
  | EmptyString => acc
  | String c s' => decimalFrom (acc * 10 + Z.of_nat (nat_of_ascii c - 48)) s'
  end.

Definition decimal (s : string) : Z := decimalFrom 0 s.

(** What may follow the digits of a number for [parseInt] to read that
    number: nothing, or a code unit that is neither a digit nor the [x] of
    a hexadecimal prefix. *)
Definition endsNumber (t : string) : Prop :=
  match t with
  | EmptyString => True
  | String c _ => isDigit c = false /\ c <> "x"%char /\ c <> "X"%char
  end.

(** The markers of an alpha, beta or release-candidate version. *)
Definition preMarker (m : string) : Prop := m = "a" \/ m = "b" \/ m = "rc".

(** The entry [getRepoDependencies] builds for one file. *)
Definition fileEntry (file : ManifestNode) (subPath : string) : BlobPathDeps :=
  blobPathDeps subPath (blobPath file) ""
    (if (0 <? totalCount file)%Z then dependencyNodes file else []).

(** The entries of the files whose name ends with [ext], in file order. *)
Definition bucketFor (ext : string) (files : list ManifestNode) (filenames : list string)
  : list BlobPathDeps :=
  flat_map (fun fn => if endsWith (snd fn) ext then [fileEntry (fst fn) (snd fn)] else [])
    (combine files filenames).

(** The extension of each manager of the static table. *)
Definition extensionOf (managerName : string) : option string :=
  if managerName =? "NPM" then Some "package.json"
  else if managerName =? "PYPI" then Some "requirements.txt"
  else None.

(** What a map holds under a key whose list is [l]: nothing when the list
    is empty. *)
Definition stored {A : Type} (l : list A) : option (list A) :=
  match l with
  | [] => None
  | _ => Some l
  end.

(** The entries one repository contributes under [managerName]. *)
Definition repositoryEntries (managerName : string) (repo : BranchManifest)
  : list Repository :=
  match extensionOf managerName with
  | None => []
  | Some ext =>
      List.map (repositoryEntry (repository repo))
        (bucketFor ext (edges (dependencyGraphManifests (repository repo)))
                       (nodes (dependencyGraphManifests (repository repo))))
  end.

(** Every repository of the responses names each of its manifest files. *)
Definition namesEveryFile (repo : BranchManifest) : Prop :=
  List.length (edges (dependencyGraphManifests (repository repo)))
  = List.length (nodes (dependencyGraphManifests (repository repo))).

(** The positions a request anchored at [i] stands for. *)
Definition covers (rq : Request) (position : nat) : Prop :=
  curCursorCopy rq <= position < curCursorCopy rq + numOfPages.

(** The list under a key, empty for a missing key. *)
Definition listOf {A : Type} (o : option (list A)) : list A :=
  match o with
  | Some l => l
  | None => []
  end.

(** The map [m] holds exactly the non-empty lists of [L]. *)
Definition represents {A : Type} (m : map_t (list A)) (L : string -> list A) : Prop :=
  forall k, map_get k m = stored (L k).

(** What one file adds to the bucket of manager [k]. *)
Definition contribution (k : string) (file : ManifestNode) (subPath : string)
  : list BlobPathDeps :=
  flat_map (fun me =>
              flat_map (fun ext => if (k =? fst me) && endsWith subPath ext
                                   then [fileEntry file subPath] else [])
                       (snd me))
           packageManagers.

(** The bucket of manager [k] for a repository. *)
Definition bucketOf (k : string) (repo : BranchManifest) : list BlobPathDeps :=
  match extensionOf k with
  | Some ext => bucketFor ext (edges (dependencyGraphManifests (repository repo)))
                              (nodes (dependencyGraphManifests (repository repo)))
  | None => []
  end.

(** Some manifest file of the repository has a name of the static table. *)
Definition hasManifest (repo : BranchManifest) : bool :=
  existsb (fun n => endsWith n "package.json" || endsWith n "requirements.txt")
    (nodes (dependencyGraphManifests (repository repo))).

(** The requirement a list of declarations leaves for a package: that of
    its last declaration. *)
Definition lastRequirement (p : string) (ds : list DependencyGraphDependency)
  : option string :=
  option_map requirements (find (fun d => packageName d =? p) (rev ds)).

(** The text of the output document for given resolution maps ([None]
    for a manager that was not resolved). *)
Definition documentOf
    (generateDependencyTree : list Repository -> option (map_t string) -> string)
    (allDeps : AllDeps) (npmDepDataMap pypiDepDataMap : option (map_t string)) : string :=
  ("{"
   ++ dq ++ "npm" ++ dq ++ ": ["
   ++ match map_get "NPM" allDeps with
      | None => ""
      | Some repos => generateDependencyTree repos npmDepDataMap
      end
   ++ "], "
   ++ dq ++ "PyPI" ++ dq ++ ": ["
   ++ match map_get "PYPI" allDeps with
      | None => ""
      | Some repos => generateDependencyTree repos pypiDepDataMap
      end
   ++ "]"
   ++ "}")%string.

(** A numeral whose value a double holds exactly; [parseInt] returns that
    value as it is. *)
Definition exactNumeral (s : string) : Prop :=
  numeral s /\ (decimal s <= 2 ^ 53)%Z.

End Grammar.

(** ** The order in which the keys of an object are enumerated *)
Module ForIn.
Import Js PackageAPI Spec Grammar.









End ForIn.

(** ** A source whose last request rejects *)
Module RejectingSource.
Import Js Index Sources.

(** A source that plays a script whatever cursor it is asked for and
    rejects with [e] once the script is played. *)
Definition rejectingQuery (e : error) (w : ScriptWorld) (cursor : value)
  : completion OrgRepos * ScriptWorld :=
  match snd w with
  | [] => (Throw e, w)
  | (page, t) :: later => (Normal page, (t, later))
  end.

(** The paging loop of [scrapeOrganisation] run on that source. *)
Definition listCursorsUntil (e : error) (fuel : nat) (start : Z) (script : Script)
  : outcome ScriptWorld :=
  paginate ScriptWorld (rejectingQuery e) scriptNow fuel
    (initial ScriptWorld (start, script)).

End RejectingSource.

Import Js PackageAPI Index Spec Sources.

(** * Properties *)

(** ** Strings *)

Lemma append_empty_r (s : string) : (s ++ "")%string = s.
Proof. induction s as [|c s IH]; simpl; [reflexivity | now rewrite IH]. Qed.

Lemma append_snoc (cur s : string) (c : ascii) :
  ((cur ++ String c "") ++ s)%string = (cur ++ String c s)%string.
Proof. induction cur as [|c' cur IH]; simpl; [reflexivity | now rewrite IH]. Qed.

Lemma split_go_absent (c : ascii) (s cur : string) :
  occurs c s = false ->
  split_go (String c "") 0 cur s = [(cur ++ s)%string].
Proof.
  revert cur; induction s as [|c' s IH]; intros cur H; simpl in *.
  - now rewrite append_empty_r.
  - destruct (Ascii.eqb c' c) eqn:E; [discriminate|].
    destruct (ascii_dec c c') as [->|_].
    + now rewrite Ascii.eqb_refl in E.
    + rewrite IH by assumption. now rewrite append_snoc.
Qed.

Lemma split_absent (c : ascii) (s : string) :
  occurs c s = false -> split (String c "") s = [s].
Proof. intros H. unfold split. now rewrite split_go_absent. Qed.

(** A string with no epoch separator is parsed as a whole, without error. *)
Lemma parse_no_separator (s : string) :
  occurs "!" s = false ->
  parsePythonPackageVersion s
  = Normal (parseRest (tl (split "." s))
              {| epoch := Num 0; first := parseInt (hd "" (split "." s));
                 rest := []; isPrerelease := false |}).
Proof.
  intros H. unfold parsePythonPackageVersion, split_limit.
  now rewrite (split_absent "!" s H).
Qed.

(** ** The best-release loop *)


(** C2.  The comparator does not implement the specified ranking: for
    the non-prerelease versions 1.5 and 2.0 it answers that 1.5 ranks above
    2.0, because a smaller major number falls through to the comparison of
    the components, while the specified ranking (majors first) answers no;
    it also answers that 2.0 ranks above 1.5.  The specification's example,
    1.2.0 above 1.1.9, does hold. *)
Theorem greaterThan_smaller_major_falls_through :
  let a := {| epoch := Num 0; first := Num 1; rest := [Num 5]; isPrerelease := false |} in
  let b := {| epoch := Num 0; first := Num 2; rest := [Num 0]; isPrerelease := false |} in
  parsePythonPackageVersion "1.5" = Normal a
  /\ parsePythonPackageVersion "2.0" = Normal b
  /\ greaterThanPythonPackageVersion a b = true
  /\ spec_greaterThan a b = false
  /\ greaterThanPythonPackageVersion b a = true
  /\ (exists v w, parsePythonPackageVersion "1.2.0" = Normal v
                  /\ parsePythonPackageVersion "1.1.9" = Normal w
                  /\ greaterThanPythonPackageVersion v w = true
                  /\ greaterThanPythonPackageVersion w v = false).
Proof.
  cbv zeta. repeat split; try (vm_compute; reflexivity).
  eexists; eexists. repeat split; vm_compute; reflexivity.
Qed.

(** C3.  On ["1!2.3"] the parser reads the epoch 1 but then continues with
    the single code unit at index 1 of the input (the separator itself)
    instead of the text after the separator: the major number is NaN and
    there are no components, where the specification has major 2 and components
    [3]. *)
Theorem parse_epoch_drops_remainder :
  parsePythonPackageVersion "1!2.3"
  = Normal {| epoch := Num 1; first := NaN; rest := []; isPrerelease := false |}
  /\ charAt 1 "1!2.3" = Some "!"
  /\ nth 1 (split_limit "!" 2 "1!2.3") "" = "2.3".
Proof. repeat split; vm_compute; reflexivity. Qed.

(** C5.  For the releases ["2.0"; "1.5"], both non-prerelease, the loop
    returns "1.5" although 2.0 is the higher release under the ranking of
    the specification; the specification's example list does select
    "1.0.0", and an empty release set yields the sentinel "0". *)
Theorem bestVersion_not_highest :
  queryDependencyPyPI ["2.0"; "1.5"] = Normal "1.5"
  /\ (exists hi lo, parsePythonPackageVersion "2.0" = Normal hi
                    /\ parsePythonPackageVersion "1.5" = Normal lo
                    /\ isPrerelease hi = false /\ isPrerelease lo = false
                    /\ spec_greaterThan hi lo = true
                    /\ spec_greaterThan lo hi = false)
  /\ queryDependencyPyPI ["1.0.0"; "1.1.0a1"; "2.0.0.dev1"] = Normal "1.0.0"
  /\ queryDependencyPyPI [] = Normal "0".
Proof.
  split; [vm_compute; reflexivity|].
  split; [|split; vm_compute; reflexivity].
  eexists; eexists. repeat split; vm_compute; reflexivity.
Qed.

(** ** Maps in insertion order *)

Section MapFacts.
Context {V : Type}.
Implicit Types (m : map_t V) (k : string) (v : V).

Lemma map_get_set_same k v m : map_get k (map_set k v m) = Some v.
Proof.
  induction m as [|[k' v'] m IH]; simpl.
  - now rewrite String.eqb_refl.
  - destruct (k' =? k) eqn:E; simpl; rewrite E; [reflexivity | exact IH].
Qed.

Lemma map_get_set_other k k' v m :
  k' <> k -> map_get k' (map_set k v m) = map_get k' m.
Proof.
  intros Hne. induction m as [|[k0 v0] m IH]; simpl.
  - destruct (k =? k') eqn:E; [apply String.eqb_eq in E; congruence | reflexivity].
  - destruct (k0 =? k) eqn:E; simpl.
    + apply String.eqb_eq in E; subst k0.
      destruct (k =? k') eqn:E'; [apply String.eqb_eq in E'; congruence | reflexivity].
    + now rewrite IH.
Qed.

Lemma map_modify_some k (f : V -> V) m v :
  map_get k m = Some v -> exists m', map_modify k f m = Some m'.
Proof.
  induction m as [|[k' v'] m IH]; simpl; [discriminate|].
  destruct (k' =? k); [eauto|].
  intros H. destruct (IH H) as [m' ->]. eauto.
Qed.

Lemma map_get_modify_same k (f : V -> V) m m' :
  map_modify k f m = Some m' ->
  exists v, map_get k m = Some v /\ map_get k m' = Some (f v).
Proof.
  revert m'; induction m as [|[k' v'] m IH]; simpl; intros m'; [discriminate|].
  destruct (k' =? k) eqn:E.
  - intros [= <-]. simpl. rewrite E. eauto.
  - destruct (map_modify k f m) as [m''|]; [|discriminate].
    intros [= <-]. simpl. rewrite E. now apply IH.
Qed.

Lemma map_get_modify_other k k' (f : V -> V) m m' :
  map_modify k f m = Some m' -> k' <> k -> map_get k' m' = map_get k' m.
Proof.
  revert m'; induction m as [|[k0 v0] m IH]; simpl; intros m'; [discriminate|].
  destruct (k0 =? k) eqn:E.
  - intros [= <-] Hne. simpl.
    apply String.eqb_eq in E; subst k0.
    destruct (k =? k') eqn:E'; [apply String.eqb_eq in E'; congruence | reflexivity].
  - destruct (map_modify k f m) as [m''|]; [|discriminate].
    intros [= <-] Hne. simpl. destruct (k0 =? k'); [reflexivity | now apply IH].
Qed.

Lemma map_keys_modify k (f : V -> V) m m' :
  map_modify k f m = Some m' -> map_keys m' = map_keys m.
Proof.
  revert m'; induction m as [|[k0 v0] m IH]; simpl; intros m'; [discriminate|].
  destruct (k0 =? k).
  - now intros [= <-].
  - destruct (map_modify k f m) as [m''|]; [|discriminate].
    intros [= <-]. simpl. f_equal. now apply IH.
Qed.

Lemma map_get_none_keys k m : map_get k m = None <-> ~ In k (map_keys m).
Proof.
  induction m as [|[k0 v0] m IH]; simpl; [tauto|].
  destruct (k0 =? k) eqn:E.
  - apply String.eqb_eq in E. split; [discriminate | intros H; exfalso; apply H; now left].
  - apply String.eqb_neq in E. rewrite IH. tauto.
Qed.

Lemma map_set_fresh k v m : map_get k m = None -> map_set k v m = m ++ [(k, v)].
Proof.
  induction m as [|[k0 v0] m IH]; simpl; [reflexivity|].
  destruct (k0 =? k); [discriminate|]. intros H. now rewrite IH.
Qed.

Lemma map_get_in k v m : map_get k m = Some v -> In (k, v) m.
Proof.
  induction m as [|[k0 v0] m IH]; simpl; [discriminate|].
  destruct (k0 =? k) eqn:E.
  - apply String.eqb_eq in E. intros [= ->]. left. congruence.
  - intros H. right. now apply IH.
Qed.

Lemma map_in_get k v m : NoDup (map_keys m) -> In (k, v) m -> map_get k m = Some v.
Proof.
  induction m as [|[k0 v0] m IH]; simpl; [tauto|].
  intros Hnd [[= -> ->]|Hin].
  - now rewrite String.eqb_refl.
  - inversion Hnd as [|? ? Hnotin Hnd']; subst.
    destruct (k0 =? k) eqn:E.
    + apply String.eqb_eq in E; subst k0. exfalso. apply Hnotin.
      change k with (fst (k, v)). now apply in_map.
    + now apply IH.
Qed.
End MapFacts.

(** ** getRepoDependencies *)

Lemma pushUnder_spec (managerName : string) (x : BlobPathDeps) (m m1 : PackageMap) :
  m1 = (if negb (map_has managerName m) then map_set managerName [] m else m) ->
  exists m',
    pushUnder managerName x m1 = Normal m'
    /\ recorded managerName x m'
    /\ forall k y, recorded k y m -> recorded k y m'.
Proof.
  intros Hm1.
  assert (Hget : exists l, map_get managerName m1 = Some l
                           /\ forall y, recorded managerName y m -> In y l).
  { rewrite Hm1. unfold map_has. destruct (map_get managerName m) as [l|] eqn:E; simpl.
    - exists l. split; [assumption|]. intros y [l' [Hl' Hy]]. congruence.
    - exists []. split; [apply map_get_set_same|].
      intros y [l' [Hl' _]]. congruence. }
  assert (Hother : forall k, k <> managerName -> map_get k m1 = map_get k m).
  { intros k Hk. rewrite Hm1. destruct (negb (map_has managerName m)); [|reflexivity].
    now apply map_get_set_other. }
  destruct Hget as [l [Hl Hkeep]].
  destruct (map_modify_some managerName (fun l => l ++ [x]) m1 l Hl) as [m' Hm'].
  exists m'. unfold pushUnder. rewrite Hm'. split; [reflexivity|].
  destruct (map_get_modify_same _ _ _ _ Hm') as [l0 [Hl0 Hnew]].
  assert (l0 = l) by congruence; subst l0.
  split.
  - exists (l ++ [x]). split; [assumption|]. apply in_or_app. right. now left.
  - intros k y Hrec. destruct (string_dec k managerName) as [->|Hne].
    + exists (l ++ [x]). split; [assumption|]. apply in_or_app. left. now apply Hkeep.
    + destruct Hrec as [l' [Hl' Hy]]. exists l'. split; [|assumption].
      rewrite (map_get_modify_other _ _ _ _ _ Hm' Hne). now rewrite Hother.
Qed.

(** One extension test: it never throws, keeps what is recorded, adds the
    file's entry on a match and changes nothing otherwise. *)
Lemma extensionStep_spec (file : ManifestNode) (subPath managerName ext : string)
    (m : PackageMap) :
  exists m',
    extensionStep file subPath managerName ext m = Normal m'
    /\ (forall k y, recorded k y m -> recorded k y m')
    /\ (endsWith subPath ext = false -> m' = m)
    /\ (endsWith subPath ext = true ->
        recorded managerName
          (blobPathDeps subPath (blobPath file) ""
             (if (0 <? totalCount file)%Z then dependencyNodes file else [])) m').
Proof.
  unfold extensionStep. destruct (endsWith subPath ext).
  - destruct (0 <? totalCount file)%Z.
    + destruct (pushUnder_spec managerName
                  (blobPathDeps subPath (blobPath file) "" (dependencyNodes file)) m _ eq_refl)
        as [m' [H1 [H2 H3]]].
      exists m'. repeat split; auto; discriminate.
    + destruct (pushUnder_spec managerName
                  (blobPathDeps subPath (blobPath file) "" []) m _ eq_refl)
        as [m' [H1 [H2 H3]]].
      exists m'. repeat split; auto; discriminate.
  - exists m. repeat split; auto; discriminate.
Qed.

Lemma extensionLoop_spec (file : ManifestNode) (subPath managerName : string)
    (exts : list string) (m : PackageMap) :
  exists m',
    extensionLoop file subPath managerName exts m = Normal m'
    /\ (forall k y, recorded k y m -> recorded k y m')
    /\ ((forall ext, In ext exts -> endsWith subPath ext = false) -> m' = m)
    /\ (forall ext, In ext exts -> endsWith subPath ext = true ->
        recorded managerName
          (blobPathDeps subPath (blobPath file) ""
             (if (0 <? totalCount file)%Z then dependencyNodes file else [])) m').
Proof.
  revert m; induction exts as [|ext exts IH]; intros m; simpl.
  - exists m. repeat split; auto. intros ext [].
  - destruct (extensionStep_spec file subPath managerName ext m)
      as [m1 [E1 [Keep1 [Skip1 Rec1]]]].
    rewrite E1; simpl.
    destruct (IH m1) as [m2 [E2 [Keep2 [Skip2 Rec2]]]].
    exists m2. split; [assumption|]. split; [auto|]. split.
    + intros Hno. rewrite Skip2 by auto. apply Skip1. apply Hno. now left.
    + intros e [<-|Hin] He; [apply Keep2; auto | eapply Rec2; eauto].
Qed.

Lemma managerLoop_spec (file : ManifestNode) (subPath : string)
    (managers : list (string * list string)) (m : PackageMap) :
  exists m',
    managerLoop file subPath managers m = Normal m'
    /\ (forall k y, recorded k y m -> recorded k y m')
    /\ ((forall managerName exts ext,
           In (managerName, exts) managers -> In ext exts ->
           endsWith subPath ext = false) -> m' = m)
    /\ (forall managerName exts ext,
          In (managerName, exts) managers -> In ext exts ->
          endsWith subPath ext = true ->
          recorded managerName
            (blobPathDeps subPath (blobPath file) ""
               (if (0 <? totalCount file)%Z then dependencyNodes file else [])) m').
Proof.
  revert m; induction managers as [|[mgr exts] managers IH]; intros m; simpl.
  - exists m. repeat split; auto. intros ? ? ? [].
  - destruct (extensionLoop_spec file subPath mgr exts m)
      as [m1 [E1 [Keep1 [Skip1 Rec1]]]].
    rewrite E1; simpl.
    destruct (IH m1) as [m2 [E2 [Keep2 [Skip2 Rec2]]]].
    exists m2. split; [assumption|]. split; [auto|]. split.
    + intros Hno. rewrite Skip2.
      * apply Skip1. intros ext Hin. apply (Hno mgr exts ext); [now left | assumption].
      * intros mgr' exts' ext Hin. apply (Hno mgr' exts' ext). now right.
    + intros mgr' exts' ext [[= <- <-]|Hin] Hext He.
      * apply Keep2. eapply Rec1; eauto.
      * eapply Rec2; eauto.
Qed.

Lemma fileLoop_shift (files : list ManifestNode) (n : string) (ns : list string)
    (index : nat) (m : PackageMap) :
  fileLoop files (n :: ns) (S index) m = fileLoop files ns index m.
Proof.
  revert index m; induction files as [|f files IH]; intros index m;
    cbn [fileLoop nth_error]; [reflexivity|].
  destruct (nth_error ns index) as [sp|]; [|reflexivity].
  destruct (managerLoop f sp packageManagers m) as [m'|e]; cbn [bind];
    [apply IH | reflexivity].
Qed.

Lemma fileLoop_cons (f : ManifestNode) (files : list ManifestNode) (n : string)
    (ns : list string) (m : PackageMap) :
  fileLoop (f :: files) (n :: ns) 0 m
  = (m' <- managerLoop f n packageManagers m ;; fileLoop files ns 0 m').
Proof.
  cbn [fileLoop nth_error].
  destruct (managerLoop f n packageManagers m) as [m'|e]; cbn [bind];
    [apply fileLoop_shift | reflexivity].
Qed.

(** With a name for every file the loop over the files does not throw,
    and it keeps what is recorded. *)
Lemma fileLoop_total (files : list ManifestNode) (ns : list string) (m : PackageMap) :
  List.length files <= List.length ns ->
  exists m', fileLoop files ns 0 m = Normal m'
             /\ forall k y, recorded k y m -> recorded k y m'.
Proof.
  revert ns m; induction files as [|f files IH]; intros ns m Hlen.
  - exists m. split; [reflexivity | auto].
  - destruct ns as [|n ns]; [simpl in Hlen; lia|].
    rewrite fileLoop_cons.
    destruct (managerLoop_spec f n packageManagers m) as [m1 [E1 [Keep1 _]]].
    rewrite E1; simpl.
    destruct (IH ns m1) as [m2 [E2 Keep2]]; [simpl in Hlen; lia|].
    exists m2. split; [assumption | auto].
Qed.

Lemma fileLoop_records (files : list ManifestNode) (ns : list string) (m m' : PackageMap)
    (i : nat) (file : ManifestNode) (subPath managerName ext : string) (exts : list string) :
  fileLoop files ns 0 m = Normal m' ->
  nth_error files i = Some file ->
  nth_error ns i = Some subPath ->
  In (managerName, exts) packageManagers -> In ext exts ->
  endsWith subPath ext = true ->
  recorded managerName
    (blobPathDeps subPath (blobPath file) ""
       (if (0 <? totalCount file)%Z then dependencyNodes file else [])) m'.
Proof.
  revert ns m i; induction files as [|f files IH]; intros ns m i Hrun Hf Hn Hmgr Hext He.
  - destruct i; discriminate.
  - destruct ns as [|n ns]; [destruct i; discriminate|].
    rewrite fileLoop_cons in Hrun.
    destruct (managerLoop_spec f n packageManagers m) as [m1 [E1 [_ [_ Rec1]]]].
    rewrite E1 in Hrun; simpl in Hrun.
    destruct i as [|i]; simpl in Hf, Hn.
    + injection Hf as ->. injection Hn as ->.
      assert (Hlen : List.length files <= List.length ns).
      { clear -Hrun. revert ns m1 Hrun.
        induction files as [|f files IH]; intros ns m1 Hrun; simpl; [lia|].
        destruct ns as [|n ns]; [discriminate|].
        rewrite fileLoop_cons in Hrun.
        destruct (managerLoop f n packageManagers m1) as [m2|]; [|discriminate].
        simpl in Hrun. specialize (IH _ _ Hrun). simpl. lia. }
      destruct (fileLoop_total files ns m1 Hlen) as [m2 [E2 Keep2]].
      assert (m2 = m') by congruence; subst m2.
      apply Keep2. eapply Rec1; eauto.
    + eapply IH; eauto.
Qed.

Lemma fileLoop_ignores (before after : list ManifestNode) (nbefore nafter : list string)
    (file : ManifestNode) (subPath : string) (m : PackageMap) :
  List.length before = List.length nbefore ->
  matchesNoExtension subPath ->
  fileLoop (before ++ file :: after) (nbefore ++ subPath :: nafter) 0 m
  = fileLoop (before ++ after) (nbefore ++ nafter) 0 m.
Proof.
  intros Hlen Hno. revert nbefore m Hlen.
  induction before as [|f before IH]; intros [|n nbefore] m Hlen; try discriminate.
  - simpl app. rewrite fileLoop_cons.
    destruct (managerLoop_spec file subPath packageManagers m) as [m1 [E1 [_ [Skip1 _]]]].
    rewrite E1; simpl. now rewrite (Skip1 Hno).
  - simpl app. rewrite !fileLoop_cons.
    destruct (managerLoop f n packageManagers m) as [m1|e]; simpl; [|reflexivity].
    apply IH. simpl in Hlen. lia.
Qed.

(** C8.  In a repository with a name for each of its manifest files, a
    file whose name ends with an extension of the static table and that
    declares zero dependencies is recorded in that manager's bucket, as an
    entry with an empty dependency list; and a file whose name matches no
    extension is ignored: the package map is the one built without it. *)
Theorem manifest_recorded_or_ignored :
  (forall (repo : BranchManifest) (i : nat) (file : ManifestNode)
          (subPath managerName ext : string) (exts : list string),
      let g := dependencyGraphManifests (repository repo) in
      List.length (edges g) = List.length (nodes g) ->
      nth_error (edges g) i = Some file ->
      nth_error (nodes g) i = Some subPath ->
      In (managerName, exts) packageManagers -> In ext exts ->
      endsWith subPath ext = true ->
      totalCount file = 0%Z ->
      exists obj,
        getRepoDependencies repo = Normal obj
        /\ recorded managerName (blobPathDeps subPath (blobPath file) "" [])
             (packageMap obj))
  /\ (forall (base : UpperBranchManifest) (before after : list ManifestNode)
             (nbefore nafter : list string) (file : ManifestNode) (subPath : string),
         List.length before = List.length nbefore ->
         matchesNoExtension subPath ->
         packageMapOf (repoOf base (before ++ file :: after) (nbefore ++ subPath :: nafter))
         = packageMapOf (repoOf base (before ++ after) (nbefore ++ nafter))).
Proof.
  split.
  - intros repo i file subPath managerName ext exts g Hlen Hf Hn Hmgr Hext He Hzero.
    unfold getRepoDependencies. fold g.
    destruct (fileLoop_total (edges g) (nodes g) []) as [m' [E _]]; [lia|].
    rewrite E; simpl. eexists. split; [reflexivity|]. simpl.
    pose proof (fileLoop_records _ _ _ _ _ _ _ _ _ _ E Hf Hn Hmgr Hext He) as R.
    now rewrite Hzero in R.
  - intros base before after nbefore nafter file subPath Hlen Hno.
    unfold packageMapOf, getRepoDependencies, repoOf; simpl.
    rewrite (fileLoop_ignores _ _ _ _ _ _ _ Hlen Hno).
    destruct (fileLoop (before ++ after) (nbefore ++ nafter) 0 []); reflexivity.
Qed.

(** ** mergeDependenciesLists *)

Lemma set_add_in (x y : string) (s : set_t) :
  In y (set_add x s) <-> y = x \/ In y s.
Proof.
  unfold set_add, set_has. destruct (existsb (String.eqb x) s) eqn:E.
  - apply existsb_exists in E. destruct E as [z [Hz Hxz]].
    apply String.eqb_eq in Hxz; subst z. split; [auto | intros [->|H]; assumption].
  - rewrite in_app_iff. simpl. split.
    + intros [H|[<-|[]]]; auto.
    + intros [->|H]; auto.
Qed.

Lemma set_add_nodup (x : string) (s : set_t) : NoDup s -> NoDup (set_add x s).
Proof.
  intros Hnd. unfold set_add, set_has.
  destruct (existsb (String.eqb x) s) eqn:E; [assumption|].
  apply NoDup_app; [assumption | repeat constructor; intros [] |].
  intros y Hy [->|[]].
  assert (existsb (String.eqb y) s = true) as C; [|congruence].
  apply existsb_exists. exists y. split; [assumption | apply String.eqb_refl].
Qed.

Lemma set_add_nonempty (x : string) (s : set_t) : set_add x s <> [].
Proof.
  intros H. assert (Hin : In x (set_add x s)) by (apply set_add_in; now left).
  rewrite H in Hin. destruct Hin.
Qed.

Lemma addOne_spec (packageManager depName : string) (d d1 : DepSets) :
  d1 = (if negb (map_has packageManager d) then map_set packageManager [] d else d) ->
  wellFormed d ->
  exists d2,
    map_modify packageManager (set_add depName) d1 = Some d2
    /\ wellFormed d2
    /\ forall k x, member k x d2 <-> member k x d \/ (k = packageManager /\ x = depName).
Proof.
  intros Hd1 [Hkeys Hsets].
  assert (H1 : NoDup (map_keys d1)
               /\ (exists s0, map_get packageManager d1 = Some s0 /\ NoDup s0
                              /\ forall x, In x s0 <-> member packageManager x d)
               /\ forall k, k <> packageManager -> map_get k d1 = map_get k d).
  { rewrite Hd1. unfold map_has.
    destruct (map_get packageManager d) as [s0|] eqn:E; simpl.
    - split; [assumption|]. split; [|reflexivity].
      exists s0. split; [assumption|]. split; [apply (Hsets _ _ E)|].
      intros x. unfold member. rewrite E. split.
      + intros Hx. eauto.
      + intros [s1 [[= <-] Hx]]. assumption.
    - split; [|split].
      + rewrite (map_set_fresh _ _ _ E). unfold map_keys. rewrite map_app. simpl.
        apply NoDup_app; [assumption | repeat constructor; intros [] |].
        intros y Hy [->|[]]. now apply (map_get_none_keys y d) in E.
      + exists []. split; [apply map_get_set_same|]. split; [constructor|].
        intros x. unfold member. rewrite E. split; [intros [] | intros [s1 [[=] _]]].
      + intros k Hk. now apply map_get_set_other. }
  destruct H1 as [Hkeys1 [[s0 [Hs0 [Hnd0 Hmem0]]] Hother1]].
  destruct (map_modify_some packageManager (set_add depName) d1 s0 Hs0) as [d2 Hd2].
  exists d2. split; [assumption|].
  destruct (map_get_modify_same _ _ _ _ Hd2) as [s0' [Hs0' Hnew]].
  assert (s0' = s0) by congruence; subst s0'.
  split; [split|].
  - now rewrite (map_keys_modify _ _ _ _ Hd2).
  - intros k names Hk. destruct (string_dec k packageManager) as [->|Hne].
    + assert (names = set_add depName s0) by congruence; subst names.
      split; [now apply set_add_nodup | apply set_add_nonempty].
    + rewrite (map_get_modify_other _ _ _ _ _ Hd2 Hne), (Hother1 _ Hne) in Hk.
      now apply (Hsets k).
  - intros k x. destruct (string_dec k packageManager) as [->|Hne].
    + split.
      * intros [names [Hn Hx]].
        assert (names = set_add depName s0) by congruence; subst names.
        apply set_add_in in Hx. destruct Hx as [->|Hx]; [now right|].
        left. now apply Hmem0.
      * intros H. exists (set_add depName s0). split; [assumption|].
        apply set_add_in. destruct H as [H|[_ ->]]; [right; now apply Hmem0 | now left].
    + unfold member.
      rewrite (map_get_modify_other _ _ _ _ _ Hd2 Hne), (Hother1 _ Hne).
      split; [auto | intros [H|[C _]]; [assumption | contradiction]].
Qed.

Lemma dependencyLoop_spec (packageManager : string) (entries : list (string * string))
    (d : DepSets) :
  wellFormed d ->
  exists d',
    dependencyLoop packageManager entries d = Normal d'
    /\ wellFormed d'
    /\ forall k x, member k x d'
                   <-> member k x d \/ (k = packageManager /\ In x (map_keys entries)).
Proof.
  revert d; induction entries as [|[depName v] entries IH]; intros d Hwf; simpl.
  - exists d. split; [reflexivity|]. split; [assumption|]. intros k x. tauto.
  - match goal with
    | |- context [map_modify _ _ ?d1] =>
        destruct (addOne_spec packageManager depName d d1 eq_refl Hwf)
          as [d2 [E2 [Hwf2 Hmem2]]]
    end.
    rewrite E2.
    destruct (IH d2 Hwf2) as [d' [E' [Hwf' Hmem']]].
    exists d'. split; [assumption|]. split; [assumption|].
    intros k x. rewrite Hmem', Hmem2. intuition (subst; auto).
Qed.

Lemma repoLoop_spec (packageManager : string) (repos : list Repository) (d : DepSets) :
  wellFormed d ->
  exists d',
    repoLoop packageManager repos d = Normal d'
    /\ wellFormed d'
    /\ forall k x, member k x d'
                   <-> member k x d
                       \/ (k = packageManager
                           /\ exists repo, In repo repos
                                           /\ In x (map_keys (dependencies repo))).
Proof.
  revert d; induction repos as [|repo repos IH]; intros d Hwf; simpl.
  - exists d. split; [reflexivity|]. split; [assumption|].
    intros k x. split; [auto | intros [H|[_ [r [[] _]]]]; assumption].
  - destruct (dependencyLoop_spec packageManager (dependencies repo) d Hwf)
      as [d1 [E1 [Hwf1 Hmem1]]].
    rewrite E1; simpl.
    destruct (IH d1 Hwf1) as [d' [E' [Hwf' Hmem']]].
    exists d'. split; [assumption|]. split; [assumption|].
    intros k x. rewrite Hmem', Hmem1. split.
    + intros [[H|[-> H]]|[-> [r [Hr Hx]]]]; [now left | right | right]; split;
        eauto; exists r; auto.
    + intros [H|[-> [r [[<-|Hr] Hx]]]]; [auto | auto | right; eauto].
Qed.

Lemma managerReposLoop_spec (managerRepos : map_t (list Repository)) (d : DepSets) :
  wellFormed d ->
  exists d',
    managerReposLoop managerRepos d = Normal d'
    /\ wellFormed d'
    /\ forall k x, member k x d' <-> member k x d \/ declares managerRepos k x.
Proof.
  revert d; induction managerRepos as [|[pm repos] managerRepos IH]; intros d Hwf; simpl.
  - exists d. split; [reflexivity|]. split; [assumption|].
    intros k x. split; [auto | intros [H|[rs [r [[] _]]]]; assumption].
  - destruct (repoLoop_spec pm repos d Hwf) as [d1 [E1 [Hwf1 Hmem1]]].
    rewrite E1; simpl.
    destruct (IH d1 Hwf1) as [d' [E' [Hwf' Hmem']]].
    exists d'. split; [assumption|]. split; [assumption|].
    intros k x. rewrite Hmem', Hmem1. unfold declares. split.
    + intros [[H|[-> [r [Hr Hx]]]]|[rs [r [Hin [Hr Hx]]]]].
      * now left.
      * right. exists repos, r. simpl. auto.
      * right. exists rs, r. simpl. auto.
    + intros [H|[rs [r [[[= <- <-]|Hin] [Hr Hx]]]]].
      * auto.
      * left. right. eauto.
      * right. eauto.
Qed.

Lemma toArrays_app (d : DepSets) (acc : map_t (list string)) :
  NoDup (map_keys (acc ++ d)) -> toArrays d acc = acc ++ d.
Proof.
  revert acc; induction d as [|[k v] d IH]; intros acc Hnd; simpl.
  - now rewrite app_nil_r.
  - assert (Hfresh : map_get k acc = None).
    { apply map_get_none_keys. unfold map_keys in *. rewrite map_app in Hnd. simpl in Hnd.
      apply NoDup_remove_2 in Hnd. intros Hin. apply Hnd. apply in_or_app. now left. }
    rewrite (map_set_fresh _ _ _ Hfresh).
    rewrite IH; rewrite <- app_assoc; [reflexivity | exact Hnd].
Qed.

(** The merge never throws; its result has distinct managers, lists each
    name once, and lists exactly the declared names. *)
Lemma merge_spec (managerRepos : map_t (list Repository)) :
  exists managerDeps,
    mergeDependenciesLists managerRepos = Normal managerDeps
    /\ wellFormed managerDeps
    /\ forall k x, member k x managerDeps <-> declares managerRepos k x.
Proof.
  assert (Hwf0 : wellFormed []) by (split; [constructor | intros k names [=]]).
  destruct (managerReposLoop_spec managerRepos [] Hwf0) as [d [E [Hwf Hmem]]].
  exists d. unfold mergeDependenciesLists. rewrite E; simpl.
  rewrite toArrays_app by (apply Hwf). simpl.
  split; [reflexivity|]. split; [assumption|].
  intros k x. rewrite Hmem. split; [intros [[names [[=] _]]|H]; assumption | auto].
Qed.

(** C9.  The merge returns, per manager, the union of the declared
    dependency names: the managers of the result are distinct, each name
    is listed exactly once under its manager, a name is listed under a
    manager exactly when some repository of that manager declares it, and
    two inputs declaring the same names per manager, however many times,
    give per manager the same names. *)
Theorem merge_is_set_union :
  forall managerRepos : map_t (list Repository),
  exists managerDeps,
    mergeDependenciesLists managerRepos = Normal managerDeps
    /\ NoDup (map_keys managerDeps)
    /\ (forall k names, In (k, names) managerDeps -> NoDup names)
    /\ (forall k x, member k x managerDeps <-> declares managerRepos k x)
    /\ (forall other otherDeps,
          (forall k x, declares other k x <-> declares managerRepos k x) ->
          mergeDependenciesLists other = Normal otherDeps ->
          forall k, sameNames (map_get k managerDeps) (map_get k otherDeps)).
Proof.
  intros managerRepos.
  destruct (merge_spec managerRepos) as [md [E [[Hkeys Hsets] Hmem]]].
  exists md. split; [assumption|]. split; [assumption|]. split.
  { intros k names Hin. apply (Hsets k names). now apply map_in_get. }
  split; [assumption|].
  intros other od Hsame Eo k.
  destruct (merge_spec other) as [od' [Eo' [[Hkeys' Hsets'] Hmem']]].
  assert (od' = od) by congruence; subst od'.
  assert (Hiff : forall x, member k x md <-> member k x od).
  { intros x. now rewrite Hmem, Hmem', Hsame. }
  unfold sameNames.
  destruct (map_get k md) as [l1|] eqn:E1; destruct (map_get k od) as [l2|] eqn:E2.
  - apply NoDup_Permutation; [apply (Hsets _ _ E1) | apply (Hsets' _ _ E2) |].
    intros x. specialize (Hiff x). unfold member in Hiff. rewrite E1, E2 in Hiff.
    split; intros Hx.
    + destruct (proj1 Hiff (ex_intro _ l1 (conj eq_refl Hx))) as [l [[= <-] H]]. exact H.
    + destruct (proj2 Hiff (ex_intro _ l2 (conj eq_refl Hx))) as [l [[= <-] H]]. exact H.
  - destruct l1 as [|x l1]; [now apply (Hsets _ _ E1)|].
    assert (M : member k x md) by (exists (x :: l1); split; [assumption | now left]).
    apply Hiff in M. destruct M as [l [C _]]. congruence.
  - destruct l2 as [|x l2]; [now apply (Hsets' _ _ E2)|].
    assert (M : member k x od) by (exists (x :: l2); split; [assumption | now left]).
    apply Hiff in M. destruct M as [l [C _]]. congruence.
  - exact I.
Qed.

(** ** The paging loop *)

(** Whatever the source, every request of the paging loop carries the
    cursor argument [null]. *)
Lemma paginate_sends_null (World : Type)
    (queryRepositories : World -> value -> completion OrgRepos * World)
    (now : World -> Z) (fuel : nat) (s : PagerState World) :
  exists fin n,
    (paginate World queryRepositories now fuel s = Returned fin
     \/ (exists e, paginate World queryRepositories now fuel s = Thrown e fin)
     \/ paginate World queryRepositories now fuel s = OutOfFuel fin)
    /\ sent fin = sent s ++ repeat Null n.
Proof.
  revert s; induction fuel as [|fuel IH]; intros s; simpl.
  - exists s, 0. split; [auto | simpl; now rewrite app_nil_r].
  - destruct (queryRepositories (world s) Null) as [[response|e] w'].
    + destruct (remaining (rateLimit response) <? MINIMUM_GITHUB_POINTS)%Z.
      * eexists; exists 1. split; [right; left; eexists; reflexivity | reflexivity].
      * destruct (hasNextPage response).
        -- match goal with |- context [paginate _ _ _ fuel ?s1] =>
             destruct (IH s1) as [fin [n [Hrun Hsent]]] end.
           exists fin, (S n). split; [exact Hrun|].
           rewrite Hsent. simpl. now rewrite <- app_assoc.
        -- eexists; exists 1. split; [left; reflexivity | reflexivity].
    + eexists; exists 1. split; [right; left; eexists; reflexivity | reflexivity].
Qed.

Lemma twoPages_loops (fuel : nat) (cursors sentSoFar : list value) (rc : value) :
  paginate unit twoPages (fun _ => 0%Z) fuel
    {| world := tt; repoCursors := cursors; repoCursor := rc; sent := sentSoFar |}
  = OutOfFuel
      {| world := tt;
         repoCursors := cursors ++ List.concat (repeat [Str "c1"; Str "c2"] fuel);
         repoCursor := match fuel with O => rc | S _ => Str "c2" end;
         sent := sentSoFar ++ repeat Null fuel |}.
Proof.
  revert cursors sentSoFar rc; induction fuel as [|fuel IH]; intros cursors sentSoFar rc.
  - simpl. now rewrite !app_nil_r.
  - cbn [paginate twoPages world repoCursors repoCursor sent page1 edgeCursors
         hasNextPage endCursor rateLimit plenty remaining].
    change (5000 <? MINIMUM_GITHUB_POINTS)%Z with false. cbv iota.
    rewrite IH. f_equal. f_equal.
    + cbn [repeat List.concat List.map]. now rewrite <- !app_assoc.
    + now destruct fuel.
    + cbn [repeat]. now rewrite <- app_assoc.
Qed.

(** C1.  Against a source addressed by cursor that holds two pages, the
    loop never presents the first page's end cursor: every request carries
    [null], so the first page is fetched again on every pass and the loop
    does not return, whatever the fuel; the end cursor is stored in
    [repoCursor] and never sent.  Asked with that end cursor, the same
    source does hand out the second and last page. *)
Theorem pagination_resends_null_cursor :
  forall fuel : nat,
    paginate unit twoPages (fun _ => 0%Z) fuel (initial unit tt)
    = OutOfFuel
        {| world := tt;
           repoCursors := List.concat (repeat [Str "c1"; Str "c2"] fuel);
           repoCursor := match fuel with O => Null | S _ => Str "c2" end;
           sent := repeat Null fuel |}.
Proof. intros fuel. unfold initial. now rewrite twoPages_loops. Qed.

Lemma paginate_script_step (fuel : nat) (s : PagerState ScriptWorld)
    (t0 t : Z) (page : OrgRepos) (later : Script) :
  world s = (t0, (page, t) :: later) ->
  continues (page, t) ->
  paginate ScriptWorld scriptQuery scriptNow (S fuel) s
  = paginate ScriptWorld scriptQuery scriptNow fuel
      {| world := (t, later);
         repoCursors := repoCursors s ++ List.map Str (edgeCursors page);
         repoCursor := endCursor page;
         sent := sent s ++ [Null] |}.
Proof.
  intros Hw [Hq Hn]. simpl in Hq, Hn.
  cbn [paginate]. unfold scriptQuery. rewrite Hw. cbn [snd].
  apply Z.ltb_ge in Hq. rewrite Hq, Hn. reflexivity.
Qed.

Lemma paginate_script_quota (good : Script) :
  forall (fuel : nat) (s : PagerState ScriptWorld) (t0 t : Z) (page : OrgRepos)
         (later : Script),
    world s = (t0, good ++ (page, t) :: later) ->
    Forall continues good ->
    (remaining (rateLimit page) < MINIMUM_GITHUB_POINTS)%Z ->
    List.length good < fuel ->
    exists fin,
      paginate ScriptWorld scriptQuery scriptNow fuel s
      = Thrown (RateLimitReached (Qmake (Z.abs (resetAt (rateLimit page) - t)) 1000)) fin
      /\ repoCursors fin = repoCursors s ++ cursorsOf (good ++ [(page, t)])
      /\ world fin = (t, later)
      /\ List.length (sent fin) = List.length (sent s) + S (List.length good).
Proof.
  induction good as [|[p tp] good IH]; intros fuel s t0 t page later Hw Hgood Hq Hfuel.
  - destruct fuel as [|fuel]; [simpl in Hfuel; lia|].
    eexists. cbn [paginate]. unfold scriptQuery. rewrite Hw. cbn [snd app].
    apply Z.ltb_lt in Hq. rewrite Hq. split; [reflexivity|].
    cbn [repoCursors world sent]. unfold cursorsOf. simpl.
    rewrite app_nil_r. repeat split. rewrite length_app. simpl. lia.
  - destruct fuel as [|fuel]; [simpl in Hfuel; lia|].
    inversion Hgood as [|? ? Hp Hgood']; subst.
    rewrite (paginate_script_step fuel s t0 tp p (good ++ (page, t) :: later) Hw Hp).
    assert (Hfuel' : List.length good < fuel) by (simpl in Hfuel; lia).
    match goal with
    | |- context [paginate _ _ _ fuel ?s1] =>
        destruct (IH fuel s1 tp t page later eq_refl Hgood' Hq Hfuel')
          as [fin [Hrun [Hc [Hwf Hs]]]]
    end.
    exists fin. split; [exact Hrun|]. cbn [repoCursors sent] in Hc, Hs.
    split; [|split; [exact Hwf|]].
    + rewrite Hc. unfold cursorsOf. simpl. rewrite map_app, <- app_assoc. reflexivity.
    + rewrite Hs, length_app. simpl. lia.
Qed.

(** C7.  When the pages before it all keep enough quota and announce a
    next page, the first page that reports fewer than 10 points left makes
    the loop throw, with a number of seconds equal to the absolute value
    of the difference between the reported reset time and the current
    time (both in milliseconds, divided by 1000), so it is never negative
    even for a reset time in the past; the cursors of that page have been
    appended by then, and no further page is requested. *)
Theorem quota_exceeded_aborts :
  forall (good later : Script) (page : OrgRepos) (t start : Z) (fuel : nat),
    Forall continues good ->
    (remaining (rateLimit page) < MINIMUM_GITHUB_POINTS)%Z ->
    List.length good < fuel ->
    exists fin,
      listCursors fuel start (good ++ (page, t) :: later)
      = Thrown (RateLimitReached (Qmake (Z.abs (resetAt (rateLimit page) - t)) 1000)) fin
      /\ repoCursors fin = cursorsOf (good ++ [(page, t)])
      /\ world fin = (t, later)
      /\ List.length (sent fin) = S (List.length good)
      /\ (0 <= Qmake (Z.abs (resetAt (rateLimit page) - t)) 1000)%Q.
Proof.
  intros good later page t start fuel Hgood Hq Hfuel.
  destruct (paginate_script_quota good fuel (initial ScriptWorld (start, good ++ (page, t) :: later))
              start t page later eq_refl Hgood Hq Hfuel) as [fin [Hrun [Hc [Hw Hs]]]].
  exists fin. split; [exact Hrun|]. repeat split; try assumption.
  unfold Qle. simpl. lia.
Qed.

(** ** The batched fetch *)

Lemma groupCount_step (d : nat) :
  0 < d -> groupCount d = S (groupCount (d - numOfPages)).
Proof.
  unfold groupCount, numOfPages. intros Hd.
  destruct d as [|[|[|d]]]; [lia | reflexivity | reflexivity |].
  replace (S (S (S d)) + 3 - 1) with (d + 2 + 1 * 3) by lia.
  rewrite Nat.div_add by lia.
  replace (S (S (S d)) - 3 + 3 - 1) with (d + 2) by lia. lia.
Qed.

(** With as much fuel as there are cursors left the issuing loop ends,
    having issued one request every [numOfPages] positions. *)
Lemma issueLoop_spec (repoCursors : list value) (fuel cur : nat) :
  List.length repoCursors - cur <= fuel ->
  issueLoop fuel cur repoCursors
  = Some (List.map (fun k => requestAt repoCursors (cur + k * numOfPages))
            (seq 0 (groupCount (List.length repoCursors - cur)))).
Proof.
  assert (Hn : numOfPages = 3) by reflexivity.
  revert cur; induction fuel as [|fuel IH]; intros cur Hfuel; cbn [issueLoop];
    destruct (cur <? List.length repoCursors)%nat eqn:E.
  - apply Nat.ltb_lt in E. lia.
  - apply Nat.ltb_ge in E.
    replace (List.length repoCursors - cur) with 0 by lia. reflexivity.
  - apply Nat.ltb_lt in E.
    rewrite IH by lia.
    rewrite (groupCount_step (List.length repoCursors - cur)) by lia.
    replace (List.length repoCursors - (cur + numOfPages))
      with (List.length repoCursors - cur - numOfPages) by lia.
    cbn [seq List.map]. rewrite <- seq_shift, map_map.
    f_equal. f_equal.
    + unfold requestAt. f_equal; f_equal; lia.
    + apply map_ext. intros k. f_equal. simpl. lia.
  - apply Nat.ltb_ge in E.
    replace (List.length repoCursors - cur) with 0 by lia. reflexivity.
Qed.

Lemma issueRequests_spec (repoCursors : list value) :
  issueRequests repoCursors
  = Some (List.map (fun k => requestAt repoCursors (k * numOfPages))
            (seq 0 (groupCount (List.length repoCursors)))).
Proof.
  unfold issueRequests. rewrite issueLoop_spec by lia.
  now rewrite Nat.sub_0_r.
Qed.

(** The callbacks only append: each fulfilled request adds its response,
    each rejected one the cursor found at its position. *)
Lemma settle_fold (queryDependencies : Request -> completion GraphResponse)
    (repoCursors : list value) (order : list Request) (acc : Responses) :
  Forall (fun rq => cursorArg rq = index repoCursors (curCursorCopy rq)) order ->
  successfullResponses (fold_left (settleOne queryDependencies repoCursors) order acc)
  = successfullResponses acc ++ fulfilled queryDependencies order
  /\ failedResponses (fold_left (settleOne queryDependencies repoCursors) order acc)
     = failedResponses acc ++ rejectedAnchors queryDependencies order.
Proof.
  revert acc; induction order as [|rq order IH]; intros acc Hanch; simpl.
  - now rewrite !app_nil_r.
  - inversion Hanch as [|? ? Hrq Hrest]; subst.
    destruct (IH (settleOne queryDependencies repoCursors acc rq) Hrest) as [Hs Hf].
    rewrite Hs, Hf. unfold settleOne.
    destruct (queryDependencies rq) as [r|e]; simpl.
    + now rewrite <- app_assoc.
    + rewrite Hrq. now rewrite <- app_assoc.
Qed.

Lemma settleAll_spec (queryDependencies : Request -> completion GraphResponse)
    (repoCursors : list value) (requests order : list Request) :
  issueRequests repoCursors = Some requests ->
  Permutation order requests ->
  Permutation (successfullResponses (settleAll queryDependencies repoCursors order))
              (fulfilled queryDependencies requests)
  /\ Permutation (failedResponses (settleAll queryDependencies repoCursors order))
                 (rejectedAnchors queryDependencies requests).
Proof.
  intros Hissue Hperm.
  assert (Hanch : Forall (fun rq => cursorArg rq = index repoCursors (curCursorCopy rq)) order).
  { apply (Permutation_Forall (Permutation_sym Hperm)).
    rewrite issueRequests_spec in Hissue. injection Hissue as <-.
    apply Forall_forall. intros rq Hin. apply in_map_iff in Hin.
    destruct Hin as [k [<- _]]. reflexivity. }
  destruct (settle_fold queryDependencies repoCursors order
              {| successfullResponses := []; failedResponses := [] |} Hanch) as [Hs Hf].
  unfold settleAll. rewrite Hs, Hf. simpl.
  split; apply Permutation_flat_map; assumption.
Qed.

(** C6.  The issuing loop ends with one request per group of [numOfPages]
    cursors, anchored at the positions 0, numOfPages, 2*numOfPages, ...
    and carrying the cursor found there.  Whatever the order in which the
    requests settle, the successes are the responses of the fulfilled
    requests and the failed list holds the anchor cursors of the rejected
    ones.  With 7 cursors, 3 requests are issued, and when only the second
    rejects the failed list is its anchor cursor alone and the successes
    are the responses of the first and third. *)
Theorem fetch_isolates_failed_groups :
  forall repoCursors : list value,
  exists requests,
    issueRequests repoCursors = Some requests
    /\ requests = List.map (fun k => requestAt repoCursors (k * numOfPages))
                    (seq 0 (groupCount (List.length repoCursors)))
    /\ (forall queryDependencies order,
          Permutation order requests ->
          Permutation (successfullResponses (settleAll queryDependencies repoCursors order))
                      (fulfilled queryDependencies requests)
          /\ Permutation (failedResponses (settleAll queryDependencies repoCursors order))
                         (rejectedAnchors queryDependencies requests))
    /\ (List.length repoCursors = 7 ->
        List.length requests = 3
        /\ forall queryDependencies order r1 e r3,
             Permutation order requests ->
             queryDependencies (requestAt repoCursors 0) = Normal r1 ->
             queryDependencies (requestAt repoCursors 3) = Throw e ->
             queryDependencies (requestAt repoCursors 6) = Normal r3 ->
             failedResponses (settleAll queryDependencies repoCursors order)
             = [index repoCursors 3]
             /\ Permutation
                  (successfullResponses (settleAll queryDependencies repoCursors order))
                  [r1; r3]).
Proof.
  intros repoCursors. eexists. split; [apply issueRequests_spec|].
  split; [reflexivity|]. split.
  - intros q order Hperm.
    apply (settleAll_spec q repoCursors _ order (issueRequests_spec repoCursors) Hperm).
  - intros Hlen. rewrite Hlen. split; [reflexivity|].
    intros q order r1 e r3 Hperm H1 H2 H3.
    change (List.map (fun k => requestAt repoCursors (k * numOfPages)) (seq 0 (groupCount 7)))
      with [requestAt repoCursors 0; requestAt repoCursors 3; requestAt repoCursors 6]
      in Hperm.
    assert (Hissue : issueRequests repoCursors
                     = Some [requestAt repoCursors 0; requestAt repoCursors 3;
                             requestAt repoCursors 6]).
    { rewrite issueRequests_spec, Hlen. reflexivity. }
    destruct (settleAll_spec q repoCursors _ order Hissue Hperm) as [Hs Hf].
    unfold fulfilled, rejectedAnchors in Hs, Hf. simpl in Hs, Hf.
    rewrite H1, H2, H3 in Hs, Hf. simpl in Hs, Hf.
    split; [|exact Hs].
    apply Permutation_sym, Permutation_length_1_inv in Hf. exact Hf.
Qed.

(** C10.  After the paging loop the first slot of the collected cursors
    holds [null], also when nothing was collected; the first request of
    the batched fetch is therefore issued with the cursor argument [null],
    and when that request rejects, the value the callback appends to the
    failed list is [null]. *)
Theorem first_group_anchor_is_null :
  forall collected : list value,
    index (overwriteFirst collected) 0 = Null
    /\ exists later,
         issueRequests (overwriteFirst collected)
         = Some ({| curCursorCopy := 0; cursorArg := Null |} :: later)
         /\ forall queryDependencies e,
              queryDependencies {| curCursorCopy := 0; cursorArg := Null |} = Throw e ->
              (forall acc,
                  failedResponses
                    (settleOne queryDependencies (overwriteFirst collected) acc
                       {| curCursorCopy := 0; cursorArg := Null |})
                  = failedResponses acc ++ [Null])
              /\ forall order,
                   Permutation order ({| curCursorCopy := 0; cursorArg := Null |} :: later) ->
                   In Null (failedResponses (fetchBatches queryDependencies collected order)).
Proof.
  intros collected.
  assert (H0 : index (overwriteFirst collected) 0 = Null) by (destruct collected; reflexivity).
  split; [exact H0|].
  assert (Hissue : exists later,
             issueRequests (overwriteFirst collected)
             = Some ({| curCursorCopy := 0; cursorArg := Null |} :: later)).
  { rewrite issueRequests_spec.
    rewrite (groupCount_step (List.length (overwriteFirst collected)))
      by (destruct collected; simpl; lia).
    cbn [seq List.map]. unfold requestAt at 1. simpl Nat.mul. rewrite H0. eauto. }
  destruct Hissue as [later Hissue]. exists later. split; [exact Hissue|].
  intros q e Hrej. split.
  - intros acc. unfold settleOne. rewrite Hrej. simpl. now rewrite H0.
  - intros order Hperm. unfold fetchBatches.
    destruct (settleAll_spec q (overwriteFirst collected) _ order Hissue Hperm) as [_ Hf].
    apply (Permutation_in Null (Permutation_sym Hf)).
    unfold rejectedAnchors. simpl. rewrite Hrej. now left.
Qed.

(** ** Instances *)

Lemma quota_exceeded_aborts_witness :
  exists fin,
    listCursors 5 0 ([(page1, 100%Z)] ++ (lowPage, 61000%Z) :: [])
    = Thrown (RateLimitReached (Qmake 60000 1000)) fin
    /\ repoCursors fin = [Str "c1"; Str "c2"; Str "c4"].
Proof.
  destruct (quota_exceeded_aborts [(page1, 100%Z)] [] lowPage 61000 0 5)
    as [fin [H1 [H2 _]]].
  - constructor; [|constructor]. split; [vm_compute; discriminate | reflexivity].
  - vm_compute. reflexivity.
  - simpl. lia.
  - exists fin. split; [exact H1 | exact H2].
Defined.

Lemma manifest_recorded_or_ignored_witness :
  (exists obj,
      getRepoDependencies (repoOf appBase [readme; emptyManifest] ["README.md"; "package.json"])
      = Normal obj
      /\ recorded "NPM"
           (blobPathDeps "package.json" "/org/app/blob/main/package.json" "" [])
           (packageMap obj))
  /\ packageMapOf (repoOf appBase ([] ++ readme :: [emptyManifest])
                                  ([] ++ "README.md" :: ["package.json"]))
     = packageMapOf (repoOf appBase ([] ++ [emptyManifest]) ([] ++ ["package.json"])).
Proof.
  destruct manifest_recorded_or_ignored as [Hrec Hign]. split.
  - apply (Hrec (repoOf appBase [readme; emptyManifest] ["README.md"; "package.json"])
             1 emptyManifest "package.json" "NPM" "package.json" ["package.json"]);
      try reflexivity; simpl; auto.
  - apply Hign; [reflexivity|].
    intros managerName exts ext Hin Hext. simpl in Hin.
    destruct Hin as [[= <- <-]|[[= <- <-]|[]]]; destruct Hext as [<-|[]]; reflexivity.
Defined.

Lemma merge_is_set_union_witness :
  exists managerDeps,
    mergeDependenciesLists [("NPM", [leftPadUser; leftPadUser])] = Normal managerDeps
    /\ managerDeps = [("NPM", ["left-pad"; "lodash"])]
    /\ sameNames (map_get "NPM" managerDeps) (Some ["left-pad"; "lodash"]).
Proof.
  destruct (merge_is_set_union [("NPM", [leftPadUser; leftPadUser])])
    as [md [Hrun [_ [_ [_ Hsame]]]]].
  exists md. split; [exact Hrun|].
  assert (Hmd : md = [("NPM", ["left-pad"; "lodash"])])
    by (vm_compute in Hrun; now injection Hrun).
  split; [exact Hmd|].
  apply (Hsame [("NPM", [leftPadUser])] [("NPM", ["left-pad"; "lodash"])]);
    [|reflexivity].
  intros k x. unfold declares. split.
  - intros [repos [repo [[[= <- <-]|[]] [[<-|[]] Hx]]]].
    exists [leftPadUser; leftPadUser], leftPadUser. simpl; auto.
  - intros [repos [repo [[[= <- <-]|[]] [[<-|[<-|[]]] Hx]]]];
      exists [leftPadUser], leftPadUser; simpl; auto.
Defined.

Lemma fetch_isolates_failed_groups_witness :
  exists requests,
    issueRequests sevenCursors = Some requests
    /\ List.length requests = 3
    /\ failedResponses
         (settleAll secondRejects sevenCursors
            [requestAt sevenCursors 6; requestAt sevenCursors 3; requestAt sevenCursors 0])
       = [Str "k3"]
    /\ Permutation
         (successfullResponses
            (settleAll secondRejects sevenCursors
               [requestAt sevenCursors 6; requestAt sevenCursors 3; requestAt sevenCursors 0]))
         [[]; []].
Proof.
  destruct (fetch_isolates_failed_groups sevenCursors) as [requests [Hrun [Hreq [_ H7]]]].
  exists requests. split; [exact Hrun|].
  destruct (H7 eq_refl) as [Hlen Hcase]. split; [exact Hlen|].
  apply (Hcase secondRejects _ [] (Rejected "unreadable") []); try reflexivity.
  rewrite Hreq. change (List.map _ _)
    with [requestAt sevenCursors 0; requestAt sevenCursors 3; requestAt sevenCursors 6].
  apply Permutation_rev.
Defined.

Lemma first_group_anchor_is_null_witness :
  index (overwriteFirst []) 0 = Null
  /\ index (overwriteFirst [Str "c1"; Str "c2"]) 0 = Null
  /\ In Null (failedResponses
                (fetchBatches (fun _ => Throw (Rejected "unreadable"))
                   [Str "c1"; Str "c2"] [{| curCursorCopy := 0; cursorArg := Null |}])).
Proof.
  split; [exact (proj1 (first_group_anchor_is_null []))|].
  destruct (first_group_anchor_is_null [Str "c1"; Str "c2"]) as [H0 [later [Hrun Hrej]]].
  split; [exact H0|].
  assert (later = []) by (vm_compute in Hrun; now injection Hrun); subst later.
  destruct (Hrej (fun _ => Throw (Rejected "unreadable")) (Rejected "unreadable") eq_refl)
    as [_ Hin].
  apply Hin. apply Permutation_refl.
Defined.

(** ** Further properties of the ranking *)

Lemma restLoop_shift (indices : list nat) (x y : number) (a b : list number) :
  restLoop (List.map S indices) (x :: a) (y :: b) = restLoop indices a b.
Proof.
  induction indices as [|i indices IH]; simpl; [reflexivity|].
  now rewrite IH.
Qed.

(** The components loop followed by the length test is the ranking of
    components of the specification. *)
Lemma components_ranking (a b : list number) :
  match restLoop (seq 0 (Nat.min (List.length a) (List.length b))) a b with
  | Some r => r
  | None => (List.length b <? List.length a)%nat
  end = spec_componentsGreater a b.
Proof.
  revert b; induction a as [|x a IH]; intros [|y b]; try reflexivity.
  cbn [List.length Nat.min seq restLoop nth spec_componentsGreater].
  destruct (neq x y); [reflexivity|].
  rewrite <- seq_shift, restLoop_shift. apply IH.
Qed.

(** X5.  Between versions of the same prerelease status whose major
    numbers are integers, the comparator is the ranking of the
    specification as long as the first major is not the smaller one. *)
Theorem greaterThan_agrees_unless_major_smaller :
  forall (a b : PythonPackageVersion) (x y : Z),
    isPrerelease a = isPrerelease b ->
    first a = Num x -> first b = Num y -> (y <= x)%Z ->
    greaterThanPythonPackageVersion a b = spec_greaterThan a b.
Proof.
  intros a b x y Hpre Ha Hb Hle.
  unfold greaterThanPythonPackageVersion, spec_greaterThan.
  rewrite components_ranking, Hpre, Ha, Hb. simpl.
  destruct (isPrerelease b); simpl;
    destruct (y <? x)%Z eqn:E; try reflexivity;
    apply Z.ltb_ge in E; assert (x = y) by lia; subst;
    now rewrite Z.eqb_refl.
Qed.

Lemma greaterThan_agrees_unless_major_smaller_witness :
  greaterThanPythonPackageVersion
    {| epoch := Num 0; first := Num 1; rest := [Num 0; Num 0]; isPrerelease := false |}
    {| epoch := Num 0; first := Num 1; rest := [Num 0]; isPrerelease := false |}
  = true.
Proof.
  rewrite (greaterThan_agrees_unless_major_smaller
             {| epoch := Num 0; first := Num 1; rest := [Num 0; Num 0]; isPrerelease := false |}
             {| epoch := Num 0; first := Num 1; rest := [Num 0]; isPrerelease := false |}
             1 1 eq_refl eq_refl eq_refl);
    [reflexivity | lia].
Defined.

(** X1.  A version that is not a prerelease ranks above every prerelease,
    and no prerelease ranks above it, whatever their numbers. *)
Theorem release_outranks_prerelease :
  forall a b : PythonPackageVersion,
    isPrerelease a = false -> isPrerelease b = true ->
    greaterThanPythonPackageVersion a b = true
    /\ greaterThanPythonPackageVersion b a = false.
Proof.
  intros a b Ha Hb. unfold greaterThanPythonPackageVersion.
  now rewrite Ha, Hb.
Qed.

Lemma release_outranks_prerelease_witness :
  greaterThanPythonPackageVersion
    {| epoch := Num 0; first := Num 0; rest := [Num 1]; isPrerelease := false |}
    {| epoch := Num 0; first := Num 9; rest := [Num 0; Num 1]; isPrerelease := true |}
  = true.
Proof.
  exact (proj1 (release_outranks_prerelease
                  {| epoch := Num 0; first := Num 0; rest := [Num 1]; isPrerelease := false |}
                  {| epoch := Num 0; first := Num 9; rest := [Num 0; Num 1];
                     isPrerelease := true |}
                  eq_refl eq_refl)).
Defined.

(** X2.  ["2.0.0rc1"] parses as a prerelease and ranks below ["2.0.0"];
    between ["1.0"] and ["1.0.0"] the longer one ranks higher. *)
Theorem ranking_examples :
  exists rc full short long,
    parsePythonPackageVersion "2.0.0rc1" = Normal rc
    /\ parsePythonPackageVersion "2.0.0" = Normal full
    /\ parsePythonPackageVersion "1.0" = Normal short
    /\ parsePythonPackageVersion "1.0.0" = Normal long
    /\ isPrerelease rc = true
    /\ greaterThanPythonPackageVersion full rc = true
    /\ greaterThanPythonPackageVersion rc full = false
    /\ greaterThanPythonPackageVersion long short = true
    /\ greaterThanPythonPackageVersion short long = false.
Proof.
  do 4 eexists. repeat split; vm_compute; reflexivity.
Qed.

Lemma parseRest_shape (parts : list string) (v : PythonPackageVersion) :
  List.length (rest (parseRest parts v)) = List.length (rest v) + List.length parts
  /\ (isPrerelease (parseRest parts v) = true -> isPrerelease v = true \/ parts <> []).
Proof.
  revert v; induction parts as [|part parts IH]; intros v; cbn [parseRest].
  - split; [simpl; lia | auto].
  - destruct (parsePart part) as [part' pre].
    match goal with |- context [parseRest parts ?v1] => destruct (IH v1) as [Hlen _] end.
    split; [|intros _; right; discriminate].
    rewrite Hlen. cbn [rest]. rewrite length_app. simpl. lia.
Qed.

Lemma parse_shape (s : string) (v : PythonPackageVersion) :
  parsePythonPackageVersion s = Normal v ->
  exists parts v0,
    v = parseRest parts v0 /\ isPrerelease v0 = false /\ rest v0 = [].
Proof.
  unfold parsePythonPackageVersion.
  destruct (List.length (split_limit "!" 2 s) =? 2)%nat.
  - destruct (charAt 1 s) as [vs|]; [|discriminate].
    intros [= <-]. do 2 eexists. split; [reflexivity|]. split; reflexivity.
  - intros [= <-]. do 2 eexists. split; [reflexivity|]. split; reflexivity.
Qed.

(** X4.  Every release string that parses ranks above the initial
    sentinel: either it is not a prerelease, or it has at least one
    component while the sentinel has none.  The first release enumerated
    therefore always replaces the sentinel, numeric or not. *)
Theorem parsed_release_outranks_sentinel :
  forall (release : string) (version : PythonPackageVersion) (later : list string),
    parsePythonPackageVersion release = Normal version ->
    greaterThanPythonPackageVersion version sentinel = true
    /\ bestVersionLoop (release :: later) "0" sentinel
       = bestVersionLoop later release version.
Proof.
  intros release version later Hparse.
  assert (Hgt : greaterThanPythonPackageVersion version sentinel = true).
  { destruct (parse_shape release version Hparse) as [ps [v0 [-> [Hpre0 Hrest0]]]].
    destruct (parseRest_shape ps v0) as [Hlen Hpre].
    unfold greaterThanPythonPackageVersion.
    destruct (isPrerelease (parseRest ps v0)) eqn:E; [|reflexivity].
    destruct (Hpre eq_refl) as [C|Hne]; [congruence|].
    cbn [sentinel isPrerelease rest first negb andb List.length].
    rewrite Nat.min_0_r. cbn [seq restLoop].
    destruct (gt (first (parseRest ps v0)) (Num 0)); [reflexivity|].
    apply Nat.ltb_lt. rewrite Hlen. destruct ps; [congruence | simpl; lia]. }
  split; [exact Hgt|].
  cbn [bestVersionLoop]. rewrite Hparse. cbn [bind]. now rewrite Hgt.
Qed.

Lemma parsed_release_outranks_sentinel_witness :
  queryDependencyPyPI ["not a version"] = Normal "not a version".
Proof.
  unfold queryDependencyPyPI.
  rewrite (proj2 (parsed_release_outranks_sentinel "not a version"
                    {| epoch := Num 0; first := NaN; rest := []; isPrerelease := false |}
                    [] eq_refl)).
  reflexivity.
Defined.

(** ** Further properties of the paging loop *)

(** X3.  Against a source that plays two pages in sequence whatever
    cursor it is asked for, the first announcing a next page and the
    second not, both with enough quota, the loop returns the cursors of
    the first page followed by those of the second, after two requests
    that both carried [null]. *)
Theorem script_two_pages_concatenated :
  forall (p1 p2 : OrgRepos) (t1 t2 start : Z) (later : Script) (fuel : nat),
    continues (p1, t1) ->
    (MINIMUM_GITHUB_POINTS <= remaining (rateLimit p2))%Z ->
    hasNextPage p2 = false ->
    2 <= fuel ->
    listCursors fuel start ((p1, t1) :: (p2, t2) :: later)
    = Returned
        {| world := (t2, later);
           repoCursors := List.map Str (edgeCursors p1 ++ edgeCursors p2);
           repoCursor := endCursor p1;
           sent := [Null; Null] |}.
Proof.
  intros p1 p2 t1 t2 start later fuel H1 Hq Hlast Hfuel.
  destruct fuel as [|[|fuel]]; try lia.
  unfold listCursors.
  erewrite paginate_script_step; [|reflexivity | exact H1].
  cbn [paginate initial world repoCursors repoCursor sent]. unfold scriptQuery. cbn [snd].
  apply Z.ltb_ge in Hq. rewrite Hq, Hlast. cbn [app]. now rewrite map_app.
Qed.

Lemma script_two_pages_concatenated_witness :
  exists fin,
    listCursors 9 0 [(page1, 10%Z); (page2, 20%Z)] = Returned fin
    /\ repoCursors fin = [Str "c1"; Str "c2"; Str "c3"].
Proof.
  eexists. split.
  - apply (script_two_pages_concatenated page1 page2 10 20 0 [] 9).
    + split; [vm_compute; discriminate | reflexivity].
    + vm_compute; discriminate.
    + reflexivity.
    + lia.
  - reflexivity.
Defined.

(** ** When parsing throws *)

Lemma split_go_length (sep : string) (s : string) :
  forall skip cur, 1 <= List.length (split_go sep skip cur s).
Proof.
  induction s as [|c s IH]; intros skip cur; cbn [split_go]; [simpl; lia|].
  destruct skip; [|apply IH].
  destruct (prefix sep (String c s)); [simpl; lia | apply IH].
Qed.

Lemma split_go_present (c : ascii) (s cur : string) :
  occurs c s = true ->
  2 <= List.length (split_go (String c "") 0 cur s).
Proof.
  revert cur; induction s as [|c' s IH]; intros cur H; [discriminate|].
  cbn [split_go prefix]. cbn [occurs] in H.
  destruct (ascii_dec c c') as [->|Hne].
  - replace (prefix "" s) with true by (destruct s; reflexivity).
    cbn [List.length String.length Nat.sub].
    pose proof (split_go_length (String c' "") s 0 "") as L. lia.
  - destruct (Ascii.eqb c' c) eqn:E.
    + apply Ascii.eqb_eq in E. congruence.
    + now apply IH.
Qed.

(** X6.  Parsing throws on exactly one input, the string made of the
    epoch separator alone: its code unit at index 1 is [undefined], on
    which [split] is then called. *)
Theorem parse_throws_only_on_separator :
  forall versionString : string,
    (exists e, parsePythonPackageVersion versionString = Throw e)
    <-> versionString = "!".
Proof.
  intros s. split.
  - intros [e H]. destruct (occurs "!" s) eqn:O.
    + assert (Hlen : List.length (split_limit "!" 2 s) = 2).
      { unfold split_limit, split. rewrite length_firstn.
        pose proof (split_go_present "!" s "" O). lia. }
      unfold parsePythonPackageVersion in H. rewrite Hlen in H.
      cbn [Nat.eqb] in H.
      destruct s as [|a [|b s]].
      * discriminate O.
      * cbn [occurs] in O. destruct (Ascii.eqb a "!") eqn:E; [|discriminate].
        apply Ascii.eqb_eq in E. now subst a.
      * discriminate H.
    + rewrite (parse_no_separator s O) in H. discriminate H.
  - intros ->. exists TypeError. reflexivity.
Qed.

Import Resolve Scrape Grammar ForIn RejectingSource.

(** ** Digits and the text of a version *)

Lemma digit_cases (c : ascii) :
  isDigit c = true ->
  In c ["0"; "1"; "2"; "3"; "4"; "5"; "6"; "7"; "8"; "9"]%char.
Proof.
  destruct c as [[] [] [] [] [] [] [] []]; intros H;
    try (vm_compute in H; discriminate H); simpl; tauto.
Qed.

Ltac digit_split c H :=
  let D := fresh "D" in
  pose proof (digit_cases c H) as D; simpl in D;
  repeat (destruct D as [D|D]; [subst c|]); [..|destruct D].

(** A code unit that is not a decimal digit ends the digits [parseInt]
    reads in radix 10. *)
Lemma non_digit_stops (c : ascii) :
  isDigit c = false ->
  match digitValue c with
  | Some d => (d <? 10)%Z = false
  | None => True
  end.
Proof.
  destruct c as [[] [] [] [] [] [] [] []]; intros H;
    try (vm_compute in H; discriminate H); vm_compute; auto.
Qed.

Lemma digit_value (c : ascii) :
  isDigit c = true ->
  digitValue c = Some (Z.of_nat (nat_of_ascii c - 48))
  /\ (Z.of_nat (nat_of_ascii c - 48) <? 10)%Z = true
  /\ isWhiteSpace c = false.
Proof.
  intros H. digit_split c H; repeat split; reflexivity.
Qed.

Lemma occurs_app (c : ascii) (s t : string) :
  occurs c (s ++ t) = occurs c s || occurs c t.
Proof.
  induction s as [|c' s IH]; simpl; [reflexivity|].
  destruct (Ascii.eqb c' c); [reflexivity | exact IH].
Qed.

Lemma allDigits_occurs (c : ascii) (s : string) :
  allDigits s = true -> isDigit c = false -> occurs c s = false.
Proof.
  intros Hs Hc. induction s as [|c' s IH]; simpl in *; [reflexivity|].
  apply andb_true_iff in Hs. destruct Hs as [Hc' Hs].
  destruct (Ascii.eqb c' c) eqn:E; [|now apply IH].
  apply Ascii.eqb_eq in E. congruence.
Qed.

Lemma parseDigits_numeral (n t : string) (a : Z) :
  allDigits n = true -> endsNumber t ->
  parseDigits 10 (Some a) (n ++ t) = Some (decimalFrom a n).
Proof.
  revert a; induction n as [|c n IH]; intros a Hn Ht.
  - simpl. destruct t as [|c t]; [reflexivity|]. destruct Ht as [Hc _].
    cbn [parseDigits]. pose proof (non_digit_stops c Hc) as S.
    destruct (digitValue c) as [d|]; [now rewrite S | reflexivity].
  - cbn [allDigits] in Hn. apply andb_true_iff in Hn. destruct Hn as [Hc Hn].
    destruct (digit_value c Hc) as [Hv [Hlt _]].
    cbn [append parseDigits decimalFrom]. rewrite Hv, Hlt. now apply IH.
Qed.

Lemma parseDigits_start (c : ascii) (n t : string) :
  isDigit c = true -> allDigits n = true -> endsNumber t ->
  parseDigits 10 None (String c (n ++ t)) = Some (decimal (String c n)).
Proof.
  intros Hc Hn Ht. destruct (digit_value c Hc) as [Hv [Hlt _]].
  cbn [parseDigits]. rewrite Hv, Hlt.
  unfold decimal. cbn [decimalFrom]. now apply parseDigits_numeral.
Qed.

(** [parseInt] reads a leading decimal number as its value. *)
Lemma parseInt_numeral (n t : string) :
  numeral n -> endsNumber t -> parseInt (n ++ t) = Num (decimal n).
Proof.
  intros [Hne Hn] Ht. destruct n as [|c n]; [congruence|].
  cbn [allDigits] in Hn. apply andb_true_iff in Hn. destruct Hn as [Hc Hn].
  pose proof (parseDigits_start c n t Hc Hn Ht) as P.
  assert (Hsign : forall z, (1 * z)%Z = z) by (intros; lia).
  unfold parseInt. cbn [append trimStart].
  destruct (digit_value c Hc) as [_ [_ Hw]]. rewrite Hw.
  digit_split c Hc; try (cbv beta iota zeta; rewrite P; now rewrite Hsign).
  (* a leading 0: the next code unit must not start a hexadecimal prefix *)
  destruct n as [|c2 n].
  - destruct t as [|c3 t]; [reflexivity|]. destruct Ht as [H3 [Hx HX]].
    cbn [append] in *.
    destruct c3 as [[] [] [] [] [] [] [] []];
      try congruence; cbv beta iota zeta; rewrite P; now rewrite Hsign.
  - cbn [allDigits] in Hn. apply andb_true_iff in Hn. destruct Hn as [Hc2 Hn].
    cbn [append] in *.
    digit_split c2 Hc2; cbv beta iota zeta; rewrite P; now rewrite Hsign.
Qed.

(** *** Splitting *)

Lemma append_assoc_s (a b c : string) : ((a ++ b) ++ c)%string = (a ++ (b ++ c))%string.
Proof. induction a as [|x a IH]; simpl; [reflexivity | now rewrite IH]. Qed.

Lemma length_append_s (a b : string) :
  String.length (a ++ b) = String.length a + String.length b.
Proof. induction a as [|x a IH]; simpl; [reflexivity | now rewrite IH]. Qed.

(** A separator whose first code unit does not occur leaves the string in
    one piece. *)
Lemma split_go_no_head (c : ascii) (sep' s cur : string) :
  occurs c s = false ->
  split_go (String c sep') 0 cur s = [(cur ++ s)%string].
Proof.
  revert cur; induction s as [|c' s IH]; intros cur H; simpl in *.
  - now rewrite append_empty_r.
  - destruct (Ascii.eqb c' c) eqn:E; [discriminate|].
    destruct (ascii_dec c c') as [->|_].
    + now rewrite Ascii.eqb_refl in E.
    + rewrite IH by assumption. now rewrite append_snoc.
Qed.

(** Up to the first occurrence of a one-unit separator. *)
Lemma split_go_first (c : ascii) (s1 s2 cur : string) :
  occurs c s1 = false ->
  split_go (String c "") 0 cur (s1 ++ String c s2)
  = (cur ++ s1)%string :: split_go (String c "") 0 "" s2.
Proof.
  revert cur; induction s1 as [|c' s1 IH]; intros cur H.
  - cbn [append split_go prefix].
    destruct (ascii_dec c c) as [_|C]; [|congruence].
    replace (prefix "" s2) with true by (destruct s2; reflexivity).
    now rewrite append_empty_r.
  - cbn [occurs] in H. destruct (Ascii.eqb c' c) eqn:E; [discriminate|].
    cbn [append split_go prefix].
    destruct (ascii_dec c c') as [->|_]; [now rewrite Ascii.eqb_refl in E|].
    rewrite IH by assumption. now rewrite append_snoc.
Qed.

(** Splitting undoes joining, for pieces free of the separator. *)
Lemma split_concat (c : ascii) (p : string) (ps : list string) :
  Forall (fun s => occurs c s = false) (p :: ps) ->
  split (String c "") (String.concat (String c "") (p :: ps)) = p :: ps.
Proof.
  unfold split. revert p; induction ps as [|q ps IH]; intros p H.
  - cbn [String.concat]. inversion H; subst. now apply split_go_absent.
  - inversion H as [|? ? Hp Hrest]; subst.
    change (String.concat (String c "") (p :: q :: ps))
      with (p ++ String c (String.concat (String c "") (q :: ps)))%string.
    rewrite split_go_first by assumption. cbn [append]. f_equal. now apply IH.
Qed.

Lemma occurs_concat (c sep : ascii) (ps : list string) :
  Ascii.eqb sep c = false ->
  Forall (fun s => occurs c s = false) ps ->
  occurs c (String.concat (String sep "") ps) = false.
Proof.
  intros Hsep H. induction ps as [|p ps IH]; [reflexivity|].
  inversion H as [|? ? Hp Hrest]; subst.
  destruct ps as [|q ps]; [exact Hp|].
  change (String.concat (String sep "") (p :: q :: ps))
    with (p ++ String sep (String.concat (String sep "") (q :: ps)))%string.
  rewrite occurs_app, Hp. cbn [orb occurs]. rewrite Hsep. now apply IH.
Qed.

Lemma substring_whole (s : string) : substring 0 (String.length s) s = s.
Proof. induction s as [|c s IH]; simpl; [reflexivity | now rewrite IH]. Qed.

(** *** One segment after the major number *)

Lemma numeral_free (c : ascii) (s : string) :
  numeral s -> isDigit c = false -> occurs c s = false.
Proof. intros [_ H]. now apply allDigits_occurs. Qed.

(** A plain number is handed to [parseInt] unchanged and marks nothing. *)
Lemma parsePart_numeral (s : string) : numeral s -> parsePart s = (s, false).
Proof.
  intros Hs. pose proof Hs as [Hne Hd].
  destruct s as [|c s]; [congruence|].
  cbn [allDigits] in Hd. apply andb_true_iff in Hd. destruct Hd as [Hc Hd].
  unfold parsePart, split_limit, split.
  rewrite (split_go_no_head "a" "" _ "" (numeral_free "a" _ Hs eq_refl)).
  rewrite (split_go_no_head "b" "" _ "" (numeral_free "b" _ Hs eq_refl)).
  rewrite (split_go_no_head "r" "c" _ "" (numeral_free "r" _ Hs eq_refl)).
  digit_split c Hc; reflexivity.
Qed.

(** A number, a marker, a number: the text before the marker is kept and
    the version is marked. *)
Lemma parsePart_marker (n m k : string) :
  numeral n -> preMarker m -> numeral k ->
  parsePart (n ++ m ++ k) = (n, true).
Proof.
  intros Hn Hm Hk. pose proof Hn as [Hne Hd].
  assert (Hhead : (substring 0 3 (n ++ m ++ k) =? "dev") = false
                  /\ (substring 0 4 (n ++ m ++ k) =? "post") = false).
  { destruct n as [|c n]; [congruence|].
    cbn [allDigits] in Hd. apply andb_true_iff in Hd. destruct Hd as [Hc _].
    digit_split c Hc; split; reflexivity. }
  destruct Hhead as [Hdev Hpost].
  unfold parsePart. rewrite Hdev, Hpost. unfold split_limit, split.
  destruct Hm as [ -> | [ -> | -> ] ].
  - change ("a" ++ k)%string with (String "a" k).
    rewrite split_go_first by (now apply numeral_free).
    rewrite split_go_absent by (now apply numeral_free). reflexivity.
  - change ("b" ++ k)%string with (String "b" k).
    rewrite (split_go_no_head "a" "" (n ++ String "b" k) "").
    2:{ rewrite !occurs_app, (numeral_free "a" n Hn eq_refl). cbn [orb append occurs].
        change (Ascii.eqb "b" "a") with false. cbv iota. now apply numeral_free. }
    rewrite split_go_first by (now apply numeral_free).
    rewrite split_go_absent by (now apply numeral_free). reflexivity.
  - rewrite (split_go_no_head "a" "" (n ++ "rc" ++ k) "").
    2:{ rewrite !occurs_app, (numeral_free "a" n Hn eq_refl). cbn [orb append occurs].
        change (Ascii.eqb "r" "a") with false. change (Ascii.eqb "c" "a") with false.
        cbv iota. now apply numeral_free. }
    rewrite (split_go_no_head "b" "" (n ++ "rc" ++ k) "").
    2:{ rewrite !occurs_app, (numeral_free "b" n Hn eq_refl). cbn [orb append occurs].
        change (Ascii.eqb "r" "b") with false. change (Ascii.eqb "c" "b") with false.
        cbv iota. now apply numeral_free. }
    assert (Hrc : forall cur, split_go "rc" 0 cur (n ++ "rc" ++ k)
                              = [(cur ++ n)%string; k]).
    { clear Hdev Hpost Hne Hn. revert Hd. induction n as [|c n IH]; intros Hd cur.
      - cbn [append split_go prefix]. destruct (ascii_dec "r" "r") as [_|C]; [|congruence].
        destruct (ascii_dec "c" "c") as [_|C]; [|congruence].
        replace (prefix "" k) with true by (destruct k; reflexivity).
        cbn [String.length Nat.sub split_go].
        rewrite (split_go_no_head "r" "c" k "" (numeral_free "r" k Hk eq_refl)).
        now rewrite append_empty_r.
      - cbn [allDigits] in Hd. apply andb_true_iff in Hd. destruct Hd as [Hc Hd].
        cbn [append split_go prefix].
        destruct (ascii_dec "r" c) as [<-|_]; [discriminate Hc|].
        rewrite (IH Hd). now rewrite append_snoc. }
    rewrite Hrc. reflexivity.
Qed.

(** A segment [devN] or [postN]: the number after the tag is kept; only
    [dev] marks the version. *)
Lemma parsePart_tag (k : string) :
  parsePart ("dev" ++ k) = (k, true) /\ parsePart ("post" ++ k) = (k, false).
Proof.
  assert (D1 : substring 0 3 ("dev" ++ k) = "dev") by (destruct k; reflexivity).
  assert (D2 : substring_from 3 ("dev" ++ k) = k).
  { unfold substring_from. cbn [append String.length Nat.sub substring].
    rewrite Nat.sub_0_r. apply substring_whole. }
  assert (P0 : substring 0 3 ("post" ++ k) = "pos") by reflexivity.
  assert (P1 : substring 0 4 ("post" ++ k) = "post") by (destruct k; reflexivity).
  assert (P2 : substring_from 4 ("post" ++ k) = k).
  { unfold substring_from. cbn [append String.length Nat.sub substring].
    rewrite Nat.sub_0_r. apply substring_whole. }
  unfold parsePart. rewrite D1, D2, P0, P1, P2. split; reflexivity.
Qed.

(** *** Whole version strings *)

Lemma parseRest_app (l1 l2 : list string) (v : PythonPackageVersion) :
  parseRest (l1 ++ l2) v = parseRest l2 (parseRest l1 v).
Proof.
  revert v; induction l1 as [|p l1 IH]; intros v; cbn [app parseRest]; [reflexivity|].
  destruct (parsePart p) as [p' pre]. apply IH.
Qed.

Lemma parseInt_plain (s : string) : numeral s -> parseInt s = Num (decimal s).
Proof.
  intros Hs. rewrite <- (append_empty_r s) at 1. now apply parseInt_numeral.
Qed.

Lemma parseRest_numerals (parts : list string) (v : PythonPackageVersion) :
  Forall numeral parts ->
  parseRest parts v
  = {| epoch := epoch v; first := first v;
       rest := rest v ++ List.map (fun s => Num (decimal s)) parts;
       isPrerelease := isPrerelease v |}.
Proof.
  intros H. revert v; induction H as [|p parts Hp _ IH]; intros v; cbn [parseRest List.map].
  - rewrite app_nil_r. now destruct v.
  - rewrite (parsePart_numeral p Hp), IH. cbn [epoch first rest isPrerelease].
    now rewrite <- app_assoc, (parseInt_plain p Hp).
Qed.

Lemma parse_segments (major last : string) (components : list string) :
  numeral major -> Forall numeral components ->
  occurs "." last = false -> occurs "!" last = false ->
  parsePythonPackageVersion (String.concat "." (major :: components ++ [last]))
  = Normal (parseRest [last]
              {| epoch := Num 0; first := Num (decimal major);
                 rest := List.map (fun s => Num (decimal s)) components;
                 isPrerelease := false |}).
Proof.
  intros Hm Hc Hdot Hbang.
  assert (Hfree : forall c, isDigit c = false ->
                    occurs c last = false ->
                    Forall (fun s => occurs c s = false) (major :: components ++ [last])).
  { intros c Hc' Hl. constructor; [now apply numeral_free|].
    apply Forall_app. split; [|now repeat constructor].
    eapply Forall_impl; [|exact Hc]. intros s Hs. now apply numeral_free. }
  rewrite parse_no_separator
    by (apply occurs_concat; [reflexivity | now apply Hfree]).
  rewrite split_concat by (now apply Hfree).
  cbn [hd tl]. rewrite parseRest_app, (parseRest_numerals components) by assumption.
  cbn [epoch first rest isPrerelease app].
  now rewrite (parseInt_plain major Hm).
Qed.

Lemma exactNumeral_numeral (s : string) : exactNumeral s -> numeral s.
Proof. intros [H _]. exact H. Qed.

Lemma exactNumerals_numerals (l : list string) :
  Forall exactNumeral l -> Forall numeral l.
Proof. apply Forall_impl. exact exactNumeral_numeral. Qed.

Lemma exactNumeral_intro (s : string) :
  s <> "" -> allDigits s = true -> (decimal s <= 2 ^ 53)%Z -> exactNumeral s.
Proof. intros H1 H2 H3. split; [split|]; assumption. Qed.

Lemma numeral_intro (s : string) : s <> "" -> allDigits s = true -> numeral s.
Proof. intros H1 H2. split; assumption. Qed.

(** X7.  A final release, a major number followed by any number of
    dot-separated numbers, each at most 2^53 (the range in which the
    number [parseInt] returns is the integer written), parses to exactly
    those numbers, in order, with epoch 0, and is not marked as a
    prerelease. *)
Theorem parse_final_release :
  forall (major : string) (components : list string),
    exactNumeral major -> Forall exactNumeral components ->
    parsePythonPackageVersion (String.concat "." (major :: components))
    = Normal {| epoch := Num 0; first := Num (decimal major);
                rest := List.map (fun s => Num (decimal s)) components;
                isPrerelease := false |}.
Proof.
  intros major components Hm Hc.
  apply exactNumeral_numeral in Hm. apply exactNumerals_numerals in Hc.
  assert (Hfree : forall c, isDigit c = false ->
                    Forall (fun s => occurs c s = false) (major :: components)).
  { intros c Hc'. constructor; [now apply numeral_free|].
    eapply Forall_impl; [|exact Hc]. intros s Hs. now apply numeral_free. }
  rewrite parse_no_separator
    by (apply occurs_concat; [reflexivity | now apply Hfree]).
  rewrite split_concat by (now apply Hfree).
  cbn [hd tl]. rewrite (parseRest_numerals components) by assumption.
  cbn [epoch first rest isPrerelease app].
  now rewrite (parseInt_plain major Hm).
Qed.

Lemma parse_final_release_witness :
  parsePythonPackageVersion "3.11.0"
  = Normal {| epoch := Num 0; first := Num 3; rest := [Num 11; Num 0];
              isPrerelease := false |}.
Proof.
  apply (parse_final_release "3" ["11"; "0"]).
  - apply exactNumeral_intro; [discriminate | reflexivity | vm_compute; discriminate].
  - repeat constructor; (discriminate || (vm_compute; discriminate)).
Defined.

Lemma marker_free (c : ascii) (m : string) :
  preMarker m -> c = "."%char \/ c = "!"%char -> occurs c m = false.
Proof. intros [ -> | [ -> | -> ] ] [ -> | -> ]; reflexivity. Qed.

(** X8.  When the last dot-separated segment after the major number is a
    number, an [a], [b] or [rc] marker and a number, the version is marked
    as a prerelease; its last component is the number before the marker,
    and the number after the marker is not kept.  The numbers kept are at
    most 2^53. *)
Theorem parse_marked_prerelease :
  forall (major n m k : string) (components : list string),
    exactNumeral major -> Forall exactNumeral components ->
    exactNumeral n -> preMarker m -> numeral k ->
    parsePythonPackageVersion
      (String.concat "." (major :: components ++ [(n ++ m ++ k)%string]))
    = Normal {| epoch := Num 0; first := Num (decimal major);
                rest := List.map (fun s => Num (decimal s)) components ++ [Num (decimal n)];
                isPrerelease := true |}.
Proof.
  intros major n m k components Hmaj Hc Hn Hm Hk.
  apply exactNumeral_numeral in Hmaj, Hn. apply exactNumerals_numerals in Hc.
  rewrite parse_segments; try assumption.
  - cbn [parseRest]. rewrite (parsePart_marker n m k Hn Hm Hk).
    cbn [epoch first rest isPrerelease].
    now rewrite (parseInt_plain n Hn).
  - rewrite !occurs_app, (numeral_free "." n Hn eq_refl), (numeral_free "." k Hk eq_refl).
    rewrite (marker_free "." m Hm) by (now left). reflexivity.
  - rewrite !occurs_app, (numeral_free "!" n Hn eq_refl), (numeral_free "!" k Hk eq_refl).
    rewrite (marker_free "!" m Hm) by (now right). reflexivity.
Qed.

Lemma parse_marked_prerelease_witness :
  parsePythonPackageVersion "1.1.0a1"
  = Normal {| epoch := Num 0; first := Num 1; rest := [Num 1; Num 0];
              isPrerelease := true |}.
Proof.
  apply (parse_marked_prerelease "1" "0" "a" "1" ["1"]).
  - apply exactNumeral_intro; [discriminate | reflexivity | vm_compute; discriminate].
  - repeat constructor; (discriminate || (vm_compute; discriminate)).
  - apply exactNumeral_intro; [discriminate | reflexivity | vm_compute; discriminate].
  - left; reflexivity.
  - apply numeral_intro; [discriminate | reflexivity].
Defined.

(** X9.  A last segment [devN] marks the version as a prerelease and a
    last segment [postN] does not; in both cases [N] is appended as one
    more component.  The numbers are at most 2^53. *)
Theorem parse_dev_and_post :
  forall (major k : string) (components : list string),
    exactNumeral major -> Forall exactNumeral components -> exactNumeral k ->
    parsePythonPackageVersion
      (String.concat "." (major :: components ++ [("dev" ++ k)%string]))
    = Normal {| epoch := Num 0; first := Num (decimal major);
                rest := List.map (fun s => Num (decimal s)) components ++ [Num (decimal k)];
                isPrerelease := true |}
    /\ parsePythonPackageVersion
         (String.concat "." (major :: components ++ [("post" ++ k)%string]))
       = Normal {| epoch := Num 0; first := Num (decimal major);
                   rest := List.map (fun s => Num (decimal s)) components
                           ++ [Num (decimal k)];
                   isPrerelease := false |}.
Proof.
  intros major k components Hmaj Hc Hk.
  apply exactNumeral_numeral in Hmaj, Hk. apply exactNumerals_numerals in Hc.
  destruct (parsePart_tag k) as [Hdev Hpost].
  pose proof (parseInt_plain k Hk) as Hint.
  split; (rewrite parse_segments; try assumption;
          [ cbn [parseRest]; rewrite ?Hdev, ?Hpost;
            cbn [epoch first rest isPrerelease]; now rewrite Hint
          | cbn [append occurs]; now apply numeral_free
          | cbn [append occurs]; now apply numeral_free ]).
Qed.

Lemma parse_dev_and_post_witness :
  parsePythonPackageVersion "2.0.0.dev1"
  = Normal {| epoch := Num 0; first := Num 2; rest := [Num 0; Num 0; Num 1];
              isPrerelease := true |}
  /\ parsePythonPackageVersion "2.0.0.post1"
     = Normal {| epoch := Num 0; first := Num 2; rest := [Num 0; Num 0; Num 1];
                 isPrerelease := false |}.
Proof.
  apply (parse_dev_and_post "2" "1" ["0"; "0"]).
  - apply exactNumeral_intro; [discriminate | reflexivity | vm_compute; discriminate].
  - repeat constructor; (discriminate || (vm_compute; discriminate)).
  - apply exactNumeral_intro; [discriminate | reflexivity | vm_compute; discriminate].
Defined.

(** X10.  A marker in the major segment goes unnoticed: a version made of
    a number of at most 2^53, an [a], [b] or [rc] marker and a number,
    with no dot, parses to the major number alone and is not marked as a
    prerelease. *)
Theorem parse_marker_in_major_unnoticed :
  forall major m k : string,
    exactNumeral major -> preMarker m -> numeral k ->
    parsePythonPackageVersion (major ++ m ++ k)
    = Normal {| epoch := Num 0; first := Num (decimal major); rest := [];
                isPrerelease := false |}.
Proof.
  intros major m k Hmaj Hm Hk. apply exactNumeral_numeral in Hmaj.
  assert (Hfree : forall c, c = "."%char \/ c = "!"%char ->
                    occurs c (major ++ m ++ k) = false).
  { intros c Hc. rewrite !occurs_app, (marker_free c m Hm Hc).
    rewrite (numeral_free c major Hmaj), (numeral_free c k Hk);
      [reflexivity | destruct Hc as [ -> | -> ]; reflexivity
                   | destruct Hc as [ -> | -> ]; reflexivity]. }
  rewrite parse_no_separator by (apply Hfree; now right).
  rewrite (split_absent "." _ (Hfree "."%char (or_introl eq_refl))).
  cbn [hd tl parseRest].
  rewrite (parseInt_numeral major (m ++ k) Hmaj); [reflexivity|].
  destruct Hm as [ -> | [ -> | -> ] ]; cbn; repeat split; discriminate.
Qed.

Lemma parse_marker_in_major_unnoticed_witness :
  parsePythonPackageVersion "2rc1"
  = Normal {| epoch := Num 0; first := Num 2; rest := []; isPrerelease := false |}.
Proof.
  apply (parse_marker_in_major_unnoticed "2" "rc" "1").
  - apply exactNumeral_intro; [discriminate | reflexivity | vm_compute; discriminate].
  - right; right; reflexivity.
  - apply numeral_intro; [discriminate | reflexivity].
Defined.

(** ** More on ranking and selection *)

Lemma gt_irrefl (x : number) : gt x x = false.
Proof. destruct x as [|z]; [reflexivity | apply Z.ltb_irrefl]. Qed.

Lemma components_irrefl (l : list number) : spec_componentsGreater l l = false.
Proof.
  induction l as [|x l IH]; [reflexivity|]. cbn [spec_componentsGreater].
  destruct (neq x x); [apply gt_irrefl | exact IH].
Qed.

(** X11.  No version ranks above itself, NaN fields included. *)
Theorem greaterThan_irreflexive :
  forall a : PythonPackageVersion, greaterThanPythonPackageVersion a a = false.
Proof.
  intros a. unfold greaterThanPythonPackageVersion.
  rewrite components_ranking, components_irrefl, gt_irrefl.
  now destruct (isPrerelease a).
Qed.

Lemma outranks_sentinel (release : string) (version : PythonPackageVersion) :
  parsePythonPackageVersion release = Normal version ->
  greaterThanPythonPackageVersion version sentinel = true.
Proof.
  intros Hparse.
  destruct (parse_shape release version Hparse) as [ps [v0 [-> [Hpre0 Hrest0]]]].
  destruct (parseRest_shape ps v0) as [Hlen Hpre].
  unfold greaterThanPythonPackageVersion.
  destruct (isPrerelease (parseRest ps v0)) eqn:E; [|reflexivity].
  destruct (Hpre eq_refl) as [C|Hne]; [congruence|].
  cbn [sentinel isPrerelease rest first negb andb List.length].
  rewrite Nat.min_0_r. cbn [seq restLoop].
  destruct (gt (first (parseRest ps v0)) (Num 0)); [reflexivity|].
  apply Nat.ltb_lt. rewrite Hlen. destruct ps; [congruence | simpl; lia].
Qed.

(** The loop ends on the candidate it started from or on one of the
    releases, together with its parsed form. *)
Lemma bestVersionLoop_member (releases : list string) :
  forall (b b' : string) (bo bo' : PythonPackageVersion),
    bestVersionLoop releases b bo = Normal (b', bo') ->
    (b' = b /\ bo' = bo)
    \/ (In b' releases /\ parsePythonPackageVersion b' = Normal bo').
Proof.
  induction releases as [|r releases IH]; intros b b' bo bo' H; cbn [bestVersionLoop] in H.
  - injection H as <- <-. now left.
  - destruct (parsePythonPackageVersion r) as [v|e] eqn:P; cbn [bind] in H; [|discriminate].
    destruct (greaterThanPythonPackageVersion v bo).
    + destruct (IH _ _ _ _ H) as [[-> ->]|[Hin Hp]].
      * right. split; [now left | assumption].
      * right. split; [now right | assumption].
    + destruct (IH _ _ _ _ H) as [[-> ->]|[Hin Hp]].
      * now left.
      * right. split; [now right | assumption].
Qed.

Lemma selection_member :
  forall (releases : list string) (best : string),
    queryDependencyPyPI releases = Normal best ->
    (releases = [] /\ best = "0")
    \/ (In best releases
        /\ exists version, parsePythonPackageVersion best = Normal version).
Proof.
  intros releases best H. unfold queryDependencyPyPI in H.
  destruct releases as [|r releases].
  - left. cbn in H. injection H as <-. auto.
  - right. cbn [bestVersionLoop] in H.
    destruct (parsePythonPackageVersion r) as [v|e] eqn:P; cbn [bind] in H; [|discriminate].
    rewrite (outranks_sentinel r v P) in H.
    destruct (bestVersionLoop releases r v) as [[b bo]|e] eqn:L; cbn [bind fst] in H;
      [|discriminate].
    injection H as <-.
    destruct (bestVersionLoop_member _ _ _ _ _ L) as [[-> ->]|[Hin Hp]].
    + split; [now left | eauto].
    + split; [now right | eauto].
Qed.

(** X12.  The version returned for a package is one of its release
    strings, and one that parsed; it is the sentinel "0" only when the
    package has no release at all. *)
Theorem selection_returns_a_release :
  forall (releases : list string) (best : string),
    queryDependencyPyPI releases = Normal best ->
    (releases = [] /\ best = "0")
    \/ (In best releases
        /\ exists version, parsePythonPackageVersion best = Normal version).
Proof. exact selection_member. Qed.

Lemma selection_returns_a_release_witness :
  In "1.0.0" ["1.0.0"; "1.1.0a1"; "2.0.0.dev1"]
  /\ exists version, parsePythonPackageVersion "1.0.0" = Normal version.
Proof.
  destruct (selection_returns_a_release ["1.0.0"; "1.1.0a1"; "2.0.0.dev1"] "1.0.0" eq_refl)
    as [[C _]|H]; [discriminate C | exact H].
Defined.

(** Once the best candidate is not a prerelease it stays so. *)
Lemma bestVersionLoop_keeps_release (releases : list string) :
  forall (b b' : string) (bo bo' : PythonPackageVersion),
    bestVersionLoop releases b bo = Normal (b', bo') ->
    isPrerelease bo = false -> isPrerelease bo' = false.
Proof.
  induction releases as [|r releases IH]; intros b b' bo bo' H Hbo; cbn [bestVersionLoop] in H.
  - now injection H as <- <-.
  - destruct (parsePythonPackageVersion r) as [v|e]; cbn [bind] in H; [|discriminate].
    destruct (greaterThanPythonPackageVersion v bo) eqn:G; [|now apply (IH _ _ _ _ H)].
    apply (IH _ _ _ _ H).
    unfold greaterThanPythonPackageVersion in G. rewrite Hbo in G.
    destruct (isPrerelease v); [discriminate G | reflexivity].
Qed.

Lemma bestVersionLoop_prefers_release (releases : list string) :
  forall (b b' r : string) (bo bo' v : PythonPackageVersion),
    bestVersionLoop releases b bo = Normal (b', bo') ->
    In r releases -> parsePythonPackageVersion r = Normal v ->
    isPrerelease v = false ->
    isPrerelease bo' = false.
Proof.
  induction releases as [|r0 releases IH]; intros b b' r bo bo' v H Hin Hp Hv; [destruct Hin|].
  cbn [bestVersionLoop] in H.
  destruct (parsePythonPackageVersion r0) as [v0|e] eqn:P0; cbn [bind] in H; [|discriminate].
  destruct Hin as [->|Hin].
  - assert (v0 = v) by congruence; subst v0.
    destruct (greaterThanPythonPackageVersion v bo) eqn:G.
    + now apply (bestVersionLoop_keeps_release _ _ _ _ _ H).
    + apply (bestVersionLoop_keeps_release _ _ _ _ _ H).
      unfold greaterThanPythonPackageVersion in G. rewrite Hv in G.
      destruct (isPrerelease bo); [discriminate G | reflexivity].
  - destruct (greaterThanPythonPackageVersion v0 bo); now apply (IH _ _ _ _ _ _ H Hin Hp).
Qed.

(** X13.  When some release of the package parses as a version that is
    not a prerelease, the version returned is not a prerelease either,
    wherever the prereleases stand in the enumeration. *)
Theorem selection_prefers_releases :
  forall (releases : list string) (best r : string) (v : PythonPackageVersion),
    queryDependencyPyPI releases = Normal best ->
    In r releases -> parsePythonPackageVersion r = Normal v ->
    isPrerelease v = false ->
    exists version,
      parsePythonPackageVersion best = Normal version
      /\ isPrerelease version = false
      /\ In best releases.
Proof.
  intros releases best r v H Hin Hp Hv.
  destruct (selection_member releases best H) as [[-> _]|[Hbest [bv Hbv]]];
    [destruct Hin|].
  exists bv. split; [assumption|]. split; [|assumption].
  unfold queryDependencyPyPI in H.
  destruct (bestVersionLoop releases "0" sentinel) as [[b bo]|e] eqn:L; cbn [bind fst] in H;
    [|discriminate].
  injection H as <-.
  pose proof (bestVersionLoop_prefers_release _ _ _ _ _ _ _ L Hin Hp Hv) as Hbo.
  destruct (bestVersionLoop_member _ _ _ _ _ L) as [[-> ->]|[_ Hp']].
  - discriminate Hbo.
  - congruence.
Qed.

Lemma selection_prefers_releases_witness :
  exists version,
    parsePythonPackageVersion "1.0.0" = Normal version
    /\ isPrerelease version = false
    /\ In "1.0.0" ["3.0.0rc1"; "1.0.0"; "2.0.0.dev1"].
Proof.
  apply (selection_prefers_releases ["3.0.0rc1"; "1.0.0"; "2.0.0.dev1"] "1.0.0" "1.0.0"
           {| epoch := Num 0; first := Num 1; rest := [Num 0; Num 0]; isPrerelease := false |});
    try reflexivity.
  right; left; reflexivity.
Defined.

(** ** Pushing under a key *)

Section PushFacts.
Context {A : Type}.
Implicit Types (m : map_t (list A)) (L : string -> list A).

Lemma stored_snoc (l : list A) (x : A) : stored (l ++ [x]) = Some (l ++ [x]).
Proof. destruct l; reflexivity. Qed.

Lemma stored_none (l : list A) : stored l = None -> l = [].
Proof. destruct l; [reflexivity | discriminate]. Qed.

Lemma stored_some (l l' : list A) : stored l = Some l' -> l = l' /\ l <> [].
Proof. destruct l; [discriminate|]. intros [= <-]. split; [reflexivity | discriminate]. Qed.

Lemma represents_ext m L L' :
  (forall k, L k = L' k) -> represents m L -> represents m L'.
Proof. intros H R k. rewrite <- H. apply R. Qed.

Lemma represents_empty : represents (A := A) [] (fun _ => []).
Proof. intros k. reflexivity. Qed.

(** Ensuring the key and pushing under it appends to the list of that key
    and leaves every other key alone. *)
Lemma ensure_push (k : string) (x : A) m m1 L :
  m1 = (if negb (map_has k m) then map_set k [] m else m) ->
  represents m L -> NoDup (map_keys m) ->
  exists m2,
    map_modify k (fun l => l ++ [x]) m1 = Some m2
    /\ represents m2 (fun k' => if k' =? k then L k' ++ [x] else L k')
    /\ NoDup (map_keys m2).
Proof.
  intros Hm1 R Hnd.
  assert (H1 : map_get k m1 = Some (L k)
               /\ (forall k', k' <> k -> map_get k' m1 = map_get k' m)
               /\ NoDup (map_keys m1)).
  { rewrite Hm1. unfold map_has. pose proof (R k) as Rk.
    destruct (map_get k m) as [l|] eqn:E; cbn [negb].
    - symmetry in Rk. apply stored_some in Rk. destruct Rk as [-> _]. auto.
    - symmetry in Rk. apply stored_none in Rk. rewrite Rk.
      split; [apply map_get_set_same|]. split; [intros; now apply map_get_set_other|].
      rewrite (map_set_fresh _ _ _ E). unfold map_keys. rewrite map_app. cbn [List.map fst].
      apply NoDup_app; [assumption | repeat constructor; intros [] |].
      intros y Hy [->|[]]. now apply (map_get_none_keys y m) in E. }
  destruct H1 as [Hk [Hother Hnd1]].
  destruct (map_modify_some k (fun l => l ++ [x]) m1 _ Hk) as [m2 Hm2].
  exists m2. split; [assumption|]. split.
  - intros k'. destruct (k' =? k) eqn:E.
    + apply String.eqb_eq in E; subst k'.
      destruct (map_get_modify_same _ _ _ _ Hm2) as [l [Hl Hnew]].
      assert (l = L k) by congruence; subst l. now rewrite stored_snoc.
    + apply String.eqb_neq in E.
      rewrite (map_get_modify_other _ _ _ _ _ Hm2 E), (Hother _ E). apply R.
  - now rewrite (map_keys_modify _ _ _ _ Hm2).
Qed.

(** A map that represents only empty lists is empty. *)
Lemma represents_nil m L : represents m L -> (forall k, L k = []) -> m = [].
Proof.
  intros R H. destruct m as [|[k l] m]; [reflexivity|].
  specialize (R k). cbn [map_get] in R. rewrite String.eqb_refl, H in R. discriminate R.
Qed.
End PushFacts.

(** ** The buckets of one repository *)

Lemma extensionStep_exact (file : ManifestNode) (subPath managerName ext : string)
    (m : PackageMap) (L : string -> list BlobPathDeps) :
  represents m L -> NoDup (map_keys m) ->
  exists m',
    extensionStep file subPath managerName ext m = Normal m'
    /\ represents m'
         (fun k => L k ++ (if (k =? managerName) && endsWith subPath ext
                           then [fileEntry file subPath] else []))
    /\ NoDup (map_keys m').
Proof.
  intros R Hnd. unfold extensionStep, pushUnder, fileEntry.
  destruct (endsWith subPath ext).
  - destruct (0 <? totalCount file)%Z;
      match goal with
      | |- context [map_modify _ (fun l => l ++ [?x]) ?m1] =>
          destruct (ensure_push managerName x m m1 L eq_refl R Hnd) as [m2 [E [R2 Hnd2]]]
      end;
      rewrite E; exists m2; (split; [reflexivity|]); (split; [|assumption]);
      (eapply represents_ext; [|exact R2]); intros k; cbn beta;
      rewrite andb_true_r; destruct (k =? managerName); [reflexivity | now rewrite app_nil_r
                                                        | reflexivity | now rewrite app_nil_r].
  - exists m. split; [reflexivity|]. split; [|assumption].
    eapply represents_ext; [|exact R]. intros k. cbn beta.
    now rewrite andb_false_r, app_nil_r.
Qed.

Lemma extensionLoop_exact (file : ManifestNode) (subPath managerName : string)
    (exts : list string) (m : PackageMap) (L : string -> list BlobPathDeps) :
  represents m L -> NoDup (map_keys m) ->
  exists m',
    extensionLoop file subPath managerName exts m = Normal m'
    /\ represents m'
         (fun k => L k ++ flat_map (fun ext => if (k =? managerName) && endsWith subPath ext
                                               then [fileEntry file subPath] else []) exts)
    /\ NoDup (map_keys m').
Proof.
  revert m L; induction exts as [|ext exts IH]; intros m L R Hnd; cbn [extensionLoop].
  - exists m. split; [reflexivity|]. split; [|assumption].
    eapply represents_ext; [|exact R]. intros k. cbn. now rewrite app_nil_r.
  - destruct (extensionStep_exact file subPath managerName ext m L R Hnd)
      as [m1 [E1 [R1 Hnd1]]].
    rewrite E1. cbn [bind].
    destruct (IH m1 _ R1 Hnd1) as [m2 [E2 [R2 Hnd2]]].
    exists m2. split; [assumption|]. split; [|assumption].
    eapply represents_ext; [|exact R2]. intros k. cbn beta. cbn [flat_map].
    now rewrite <- app_assoc.
Qed.

Lemma managerLoop_exact (file : ManifestNode) (subPath : string)
    (managers : list (string * list string)) (m : PackageMap)
    (L : string -> list BlobPathDeps) :
  represents m L -> NoDup (map_keys m) ->
  exists m',
    managerLoop file subPath managers m = Normal m'
    /\ represents m'
         (fun k => L k ++ flat_map (fun me =>
                            flat_map (fun ext => if (k =? fst me) && endsWith subPath ext
                                                 then [fileEntry file subPath] else [])
                                     (snd me)) managers)
    /\ NoDup (map_keys m').
Proof.
  revert m L; induction managers as [|[mgr exts] managers IH]; intros m L R Hnd;
    cbn [managerLoop].
  - exists m. split; [reflexivity|]. split; [|assumption].
    eapply represents_ext; [|exact R]. intros k. cbn. now rewrite app_nil_r.
  - destruct (extensionLoop_exact file subPath mgr exts m L R Hnd) as [m1 [E1 [R1 Hnd1]]].
    rewrite E1. cbn [bind].
    destruct (IH m1 _ R1 Hnd1) as [m2 [E2 [R2 Hnd2]]].
    exists m2. split; [assumption|]. split; [|assumption].
    eapply represents_ext; [|exact R2]. intros k. cbn beta. cbn [flat_map fst snd].
    now rewrite <- app_assoc.
Qed.

Lemma fileLoop_exact (files : list ManifestNode) :
  forall (ns : list string) (m : PackageMap) (L : string -> list BlobPathDeps),
    List.length files <= List.length ns ->
    represents m L -> NoDup (map_keys m) ->
    exists m',
      fileLoop files ns 0 m = Normal m'
      /\ represents m'
           (fun k => L k ++ flat_map (fun fn => contribution k (fst fn) (snd fn))
                              (combine files ns))
      /\ NoDup (map_keys m').
Proof.
  induction files as [|f files IH]; intros ns m L Hlen R Hnd.
  - exists m. split; [reflexivity|]. split; [|assumption].
    eapply represents_ext; [|exact R]. intros k. cbn. now rewrite app_nil_r.
  - destruct ns as [|n ns]; [simpl in Hlen; lia|].
    rewrite fileLoop_cons.
    destruct (managerLoop_exact f n packageManagers m L R Hnd) as [m1 [E1 [R1 Hnd1]]].
    rewrite E1. cbn [bind].
    destruct (IH ns m1 _ ltac:(simpl in Hlen; lia) R1 Hnd1) as [m2 [E2 [R2 Hnd2]]].
    exists m2. split; [assumption|]. split; [|assumption].
    eapply represents_ext; [|exact R2]. intros k. cbn beta.
    cbn [combine flat_map fst snd]. unfold contribution at 3.
    now rewrite <- app_assoc.
Qed.

Lemma contribution_table (k : string) (file : ManifestNode) (subPath : string) :
  contribution k file subPath
  = match extensionOf k with
    | Some ext => if endsWith subPath ext then [fileEntry file subPath] else []
    | None => []
    end.
Proof.
  unfold contribution, extensionOf, packageManagers. cbn [flat_map fst snd app].
  destruct (k =? "NPM") eqn:E1; destruct (k =? "PYPI") eqn:E2; cbn [andb];
    rewrite ?app_nil_r; try reflexivity.
  apply String.eqb_eq in E1, E2. congruence.
Qed.

Lemma buckets_flat (k : string) (files : list ManifestNode) (ns : list string) :
  flat_map (fun fn => contribution k (fst fn) (snd fn)) (combine files ns)
  = match extensionOf k with
    | Some ext => bucketFor ext files ns
    | None => []
    end.
Proof.
  unfold bucketFor. induction (combine files ns) as [|fn l IH]; cbn [flat_map].
  - now destruct (extensionOf k).
  - rewrite IH, contribution_table. destruct (extensionOf k); reflexivity.
Qed.

(** The package map of a repository that names every file: it never
    throws, its keys are distinct, and under each manager it holds the
    entries of the files with that manager's extension, in file order. *)
Lemma getRepoDependencies_exact (repo : BranchManifest) :
  namesEveryFile repo ->
  exists obj,
    getRepoDependencies repo = Normal obj
    /\ manifest obj = repository repo
    /\ represents (packageMap obj) (fun k => bucketOf k repo)
    /\ NoDup (map_keys (packageMap obj)).
Proof.
  intros Hlen. unfold getRepoDependencies.
  destruct (fileLoop_exact (edges (dependencyGraphManifests (repository repo)))
              (nodes (dependencyGraphManifests (repository repo))) []
              (fun _ => []) ltac:(unfold namesEveryFile in Hlen; lia)
              represents_empty ltac:(constructor)) as [m [E [R Hnd]]].
  rewrite E. cbn [bind]. eexists. split; [reflexivity|]. cbn [manifest packageMap].
  split; [reflexivity|]. split; [|assumption].
  eapply represents_ext; [|exact R]. intros k. cbn beta. cbn [app].
  unfold bucketOf. apply buckets_flat.
Qed.

(** X14.  For a repository that names each of its manifest files, the
    package map holds under "NPM" exactly the entries of the files whose
    name ends with [package.json] and under "PYPI" exactly those whose
    name ends with [requirements.txt], one entry per file and in file
    order; a manager with no such file has no key, and there is no other
    key. *)
Theorem package_map_buckets :
  forall repo : BranchManifest,
    namesEveryFile repo ->
    exists obj,
      getRepoDependencies repo = Normal obj
      /\ NoDup (map_keys (packageMap obj))
      /\ forall k, map_get k (packageMap obj) = stored (bucketOf k repo).
Proof.
  intros repo H. destruct (getRepoDependencies_exact repo H) as [obj [E [_ [R Hnd]]]].
  exists obj. split; [assumption|]. split; [assumption | exact R].
Qed.

Lemma package_map_buckets_witness :
  exists obj,
    getRepoDependencies (repoOf appBase [readme; emptyManifest] ["README.md"; "package.json"])
    = Normal obj
    /\ map_get "NPM" (packageMap obj)
       = Some [blobPathDeps "package.json" "/org/app/blob/main/package.json" "" []]
    /\ map_get "PYPI" (packageMap obj) = None.
Proof.
  destruct (package_map_buckets
              (repoOf appBase [readme; emptyManifest] ["README.md"; "package.json"]) eq_refl)
    as [obj [E [_ H]]].
  exists obj. split; [exact E|]. split; rewrite H; reflexivity.
Defined.

(** ** Which repositories are kept *)

Lemma existsb_orb {A : Type} (f g : A -> bool) (l : list A) :
  existsb (fun x => f x || g x) l = existsb f l || existsb g l.
Proof.
  induction l as [|x l IH]; [reflexivity|]. cbn [existsb]. rewrite IH.
  destruct (f x), (g x), (existsb f l), (existsb g l); reflexivity.
Qed.

Lemma bucketFor_nil (ext : string) (files : list ManifestNode) :
  forall ns, List.length files = List.length ns ->
    (bucketFor ext files ns = [] <-> existsb (fun n => endsWith n ext) ns = false).
Proof.
  unfold bucketFor.
  induction files as [|f files IH]; intros [|n ns] Hlen; try discriminate Hlen.
  - cbn. tauto.
  - cbn [combine flat_map fst snd existsb]. destruct (endsWith n ext); cbn [orb app].
    + split; discriminate.
    + apply IH. simpl in Hlen. lia.
Qed.

Lemma hasManifest_buckets (repo : BranchManifest) :
  namesEveryFile repo ->
  (hasManifest repo = false <-> forall k, bucketOf k repo = []).
Proof.
  intros Hlen. unfold hasManifest. rewrite existsb_orb, orb_false_iff.
  rewrite <- (bucketFor_nil "package.json" _ _ Hlen).
  rewrite <- (bucketFor_nil "requirements.txt" _ _ Hlen).
  split.
  - intros [H1 H2] k. unfold bucketOf, extensionOf.
    destruct (k =? "NPM"); [exact H1|]. destruct (k =? "PYPI"); [exact H2 | reflexivity].
  - intros H. split; [exact (H "NPM") | exact (H "PYPI")].
Qed.

Lemma kept_iff_manifest (repo : BranchManifest) (obj : RepoDepObj) :
  namesEveryFile repo ->
  represents (packageMap obj) (fun k => bucketOf k repo) ->
  (0 <? List.length (packageMap obj))%nat = hasManifest repo.
Proof.
  intros Hlen R. destruct (hasManifest repo) eqn:E.
  - apply Nat.ltb_lt. destruct (packageMap obj) as [|e m] eqn:P; [|simpl; lia].
    exfalso. assert (F : hasManifest repo = false); [|congruence].
    apply (proj2 (hasManifest_buckets repo Hlen)). intros k.
    specialize (R k). cbn in R. symmetry in R. now apply stored_none in R.
  - pose proof (proj1 (hasManifest_buckets repo Hlen) E) as E'.
    rewrite (represents_nil _ _ R E'). reflexivity.
Qed.

(** X15.  Of repositories that name each of their manifest files,
    [getAllRepoDeps] keeps, in order, exactly those with at least one file
    named after [package.json] or [requirements.txt]; a repository with no
    such file is dropped. *)
Theorem getAllRepoDeps_keeps_manifest_repos :
  forall repoList : list BranchManifest,
    Forall namesEveryFile repoList ->
    exists objs,
      getAllRepoDeps repoList = Normal objs
      /\ List.map manifest objs = List.map repository (List.filter hasManifest repoList).
Proof.
  intros repoList H. induction H as [|repo repoList Hrepo _ IH]; cbn [getAllRepoDeps].
  - exists []. split; reflexivity.
  - destruct (getRepoDependencies_exact repo Hrepo) as [obj [E [Hman [R _]]]].
    destruct IH as [objs [Eall Hmap]].
    rewrite E, Eall. cbn [bind].
    rewrite (kept_iff_manifest repo obj Hrepo R).
    eexists. split; [reflexivity|]. cbn [List.filter].
    destruct (hasManifest repo); cbn [List.map]; [now rewrite Hman, Hmap | exact Hmap].
Qed.

Lemma getAllRepoDeps_keeps_manifest_repos_witness :
  exists objs,
    getAllRepoDeps [repoOf appBase [readme] ["README.md"];
                    repoOf appBase [emptyManifest] ["package.json"]]
    = Normal objs
    /\ List.length objs = 1.
Proof.
  destruct (getAllRepoDeps_keeps_manifest_repos
              [repoOf appBase [readme] ["README.md"];
               repoOf appBase [emptyManifest] ["package.json"]])
    as [objs [E Hmap]].
  - repeat constructor.
  - exists objs. split; [exact E|].
    rewrite <- (length_map manifest), Hmap. reflexivity.
Defined.

(** ** The dependency map of one entry *)

Lemma find_snoc {A : Type} (f : A -> bool) (l : list A) (x : A) :
  find f (l ++ [x])
  = match find f l with
    | Some y => Some y
    | None => if f x then Some x else None
    end.
Proof.
  induction l as [|y l IH]; cbn [app find]; [reflexivity|].
  destruct (f y); [reflexivity | exact IH].
Qed.

Lemma map_set_keys_nodup {V : Type} (k : string) (v : V) (m : map_t V) :
  NoDup (map_keys m) -> NoDup (map_keys (map_set k v m)).
Proof.
  intros Hnd. destruct (map_get k m) as [v0|] eqn:E.
  - assert (Hk : map_keys (map_set k v m) = map_keys m); [|now rewrite Hk].
    clear Hnd. induction m as [|[k' v'] m IH]; [discriminate|].
    cbn [map_get map_set] in *. destruct (k' =? k); [reflexivity|].
    cbn [map_keys List.map fst]. f_equal. now apply IH.
  - rewrite (map_set_fresh _ _ _ E). unfold map_keys. rewrite map_app. cbn [List.map fst].
    apply NoDup_app; [assumption | repeat constructor; intros [] |].
    intros y Hy [->|[]]. now apply (map_get_none_keys y m) in E.
Qed.

Lemma dependencyMap_spec (ds : list DependencyGraphDependency) :
  forall acc : map_t string,
    NoDup (map_keys acc) ->
    NoDup (map_keys (dependencyMap ds acc))
    /\ forall p, map_get p (dependencyMap ds acc)
                 = match lastRequirement p ds with
                   | Some r => Some r
                   | None => map_get p acc
                   end.
Proof.
  unfold lastRequirement.
  induction ds as [|d ds IH]; intros acc Hnd; cbn [dependencyMap].
  - split; [assumption | reflexivity].
  - destruct (IH (map_set (packageName d) (requirements d) acc)
                (map_set_keys_nodup _ _ _ Hnd)) as [Hnd' Hget].
    split; [assumption|]. intros p. rewrite Hget. cbn [rev]. rewrite find_snoc.
    destruct (find (fun d0 => packageName d0 =? p) (rev ds)); [reflexivity|].
    destruct (packageName d =? p) eqn:E; cbn [option_map].
    + apply String.eqb_eq in E. subst p. apply map_get_set_same.
    + apply String.eqb_neq in E. apply map_get_set_other. congruence.
Qed.

Lemma entry_spec (manifest : UpperBranchManifest) (subRepo : BlobPathDeps) :
  NoDup (map_keys (dependencies (repositoryEntry manifest subRepo)))
  /\ (forall p, map_get p (dependencies (repositoryEntry manifest subRepo))
                = lastRequirement p (bpDependencies subRepo))
  /\ (forall p, In p (map_keys (dependencies (repositoryEntry manifest subRepo)))
                <-> In p (List.map packageName (bpDependencies subRepo))).
Proof.
  cbn [repositoryEntry dependencies].
  destruct (dependencyMap_spec (bpDependencies subRepo) [] ltac:(constructor))
    as [Hnd Hget].
  assert (Hget' : forall p, map_get p (dependencyMap (bpDependencies subRepo) [])
                            = lastRequirement p (bpDependencies subRepo)).
  { intros p. rewrite Hget. now destruct (lastRequirement p (bpDependencies subRepo)). }
  split; [assumption|]. split; [assumption|].
  intros p. split.
  - intros Hin. destruct (map_get p (dependencyMap (bpDependencies subRepo) [])) eqn:E.
    + rewrite Hget' in E. unfold lastRequirement in E.
      destruct (find (fun d => packageName d =? p) (rev (bpDependencies subRepo)))
        as [d|] eqn:F; [|discriminate].
      apply find_some in F. destruct F as [Hd Hp]. apply String.eqb_eq in Hp. subst p.
      apply in_map. now apply in_rev.
    + now apply map_get_none_keys in E.
  - intros Hin. apply in_map_iff in Hin. destruct Hin as [d [<- Hd]].
    destruct (map_get (packageName d) (dependencyMap (bpDependencies subRepo) [])) eqn:E.
    + apply map_get_in in E. change (packageName d) with (fst (packageName d, s)).
      now apply in_map.
    + exfalso. rewrite Hget' in E. unfold lastRequirement in E.
      destruct (find (fun d0 => packageName d0 =? packageName d)
                  (rev (bpDependencies subRepo))) as [d'|] eqn:F; [discriminate|].
      assert (Hrev : In d (rev (bpDependencies subRepo))) by (now apply -> in_rev).
      pose proof (find_none _ _ F d Hrev) as C. cbn beta in C.
      rewrite String.eqb_refl in C. discriminate C.
Qed.

Lemma entry_keys (manifest : UpperBranchManifest) (subRepo : BlobPathDeps) (p : string) :
  In p (map_keys (dependencies (repositoryEntry manifest subRepo)))
  <-> In p (List.map packageName (bpDependencies subRepo)).
Proof. apply entry_spec. Qed.

(** X16.  In the entry built for a manifest file the keys of the
    dependency map are distinct; they are the package names the file
    declares, and a package declared more than once keeps the requirement
    of its last declaration. *)
Theorem entry_dependencies_unique :
  forall (manifest : UpperBranchManifest) (subRepo : BlobPathDeps),
    let deps := dependencies (repositoryEntry manifest subRepo) in
    NoDup (map_keys deps)
    /\ (forall p, map_get p deps = lastRequirement p (bpDependencies subRepo))
    /\ (forall p, In p (map_keys deps)
                  <-> In p (List.map packageName (bpDependencies subRepo))).
Proof. intros manifest subRepo. cbv zeta. apply entry_spec. Qed.

(** ** From the responses to the entries per manager *)

Lemma listOf_stored {A : Type} (l : list A) : listOf (stored l) = l.
Proof. destruct l; reflexivity. Qed.

Lemma subRepoLoop_exact (manifest : UpperBranchManifest) (packageManager : string)
    (depList : list BlobPathDeps) :
  forall (allDeps : AllDeps) (L : string -> list Repository),
    represents allDeps L -> NoDup (map_keys allDeps) ->
    exists allDeps',
      subRepoLoop manifest packageManager depList allDeps = Normal allDeps'
      /\ represents allDeps'
           (fun k => L k ++ (if k =? packageManager
                             then List.map (repositoryEntry manifest) depList else []))
      /\ NoDup (map_keys allDeps').
Proof.
  induction depList as [|subRepo depList IH]; intros allDeps L R Hnd; cbn [subRepoLoop].
  - exists allDeps. split; [reflexivity|]. split; [|assumption].
    eapply represents_ext; [|exact R]. intros k. cbn beta.
    destruct (k =? packageManager); now rewrite app_nil_r.
  - unfold pushRepository.
    match goal with
    | |- context [map_modify _ (fun l => l ++ [?x]) ?m1] =>
        destruct (ensure_push packageManager x allDeps m1 L eq_refl R Hnd)
          as [a2 [E [R2 Hnd2]]]
    end.
    cbv zeta. rewrite E. cbn [bind].
    destruct (IH a2 _ R2 Hnd2) as [a3 [E3 [R3 Hnd3]]].
    exists a3. split; [assumption|]. split; [|assumption].
    eapply represents_ext; [|exact R3]. intros k. cbn beta.
    destruct (k =? packageManager); cbn [List.map]; now rewrite <- ?app_assoc.
Qed.

Lemma packageMapLoop_exact (manifest : UpperBranchManifest) (entries : PackageMap) :
  forall (allDeps : AllDeps) (L : string -> list Repository),
    NoDup (map_keys entries) ->
    represents allDeps L -> NoDup (map_keys allDeps) ->
    exists allDeps',
      packageMapLoop manifest entries allDeps = Normal allDeps'
      /\ represents allDeps'
           (fun k => L k ++ List.map (repositoryEntry manifest) (listOf (map_get k entries)))
      /\ NoDup (map_keys allDeps').
Proof.
  induction entries as [|[pm depList] entries IH]; intros allDeps L He R Hnd;
    cbn [packageMapLoop].
  - exists allDeps. split; [reflexivity|]. split; [|assumption].
    eapply represents_ext; [|exact R]. intros k. cbn. now rewrite app_nil_r.
  - destruct (subRepoLoop_exact manifest pm depList allDeps L R Hnd) as [a1 [E1 [R1 Hnd1]]].
    rewrite E1. cbn [bind].
    cbn [map_keys List.map fst] in He. inversion He as [|? ? Hfresh He']; subst.
    destruct (IH a1 _ He' R1 Hnd1) as [a2 [E2 [R2 Hnd2]]].
    exists a2. split; [assumption|]. split; [|assumption].
    eapply represents_ext; [|exact R2]. intros k. cbn beta. cbn [map_get].
    rewrite <- app_assoc. f_equal.
    rewrite (String.eqb_sym pm k). destruct (k =? pm) eqn:E.
    + apply String.eqb_eq in E. subst k.
      apply (map_get_none_keys pm entries) in Hfresh. rewrite Hfresh. cbn [listOf List.map].
      now rewrite app_nil_r.
    + reflexivity.
Qed.

Lemma bucketOf_entries (k : string) (repo : BranchManifest) :
  repositoryEntries k repo = List.map (repositoryEntry (repository repo)) (bucketOf k repo).
Proof. unfold repositoryEntries, bucketOf. now destruct (extensionOf k). Qed.

(** The repositories of one response, through [getAllRepoDeps] and the
    loop over what it keeps. *)
Lemma repos_exact (repoList : list BranchManifest) :
  Forall namesEveryFile repoList ->
  exists objs,
    getAllRepoDeps repoList = Normal objs
    /\ forall (allDeps : AllDeps) (L : string -> list Repository),
         represents allDeps L -> NoDup (map_keys allDeps) ->
         exists allDeps',
           allRepoDepsLoop objs allDeps = Normal allDeps'
           /\ represents allDeps'
                (fun k => L k ++ flat_map (repositoryEntries k) repoList)
           /\ NoDup (map_keys allDeps').
Proof.
  intros H. induction H as [|repo repoList Hrepo _ IH]; cbn [getAllRepoDeps].
  - exists []. split; [reflexivity|]. intros allDeps L R Hnd.
    exists allDeps. split; [reflexivity|]. split; [|assumption].
    eapply represents_ext; [|exact R]. intros k. cbn. now rewrite app_nil_r.
  - destruct (getRepoDependencies_exact repo Hrepo) as [obj [E [Hman [Rp Hndp]]]].
    destruct IH as [objs [Eall Hloop]].
    rewrite E, Eall. cbn [bind].
    rewrite (kept_iff_manifest repo obj Hrepo Rp).
    eexists. split; [reflexivity|]. intros allDeps L R Hnd.
    destruct (hasManifest repo) eqn:Hm.
    + cbn [allRepoDepsLoop].
      destruct (packageMapLoop_exact (manifest obj) (packageMap obj) allDeps L Hndp R Hnd)
        as [a1 [E1 [R1 Hnd1]]].
      rewrite E1. cbn [bind].
      destruct (Hloop a1 _ R1 Hnd1) as [a2 [E2 [R2 Hnd2]]].
      exists a2. split; [assumption|]. split; [|assumption].
      eapply represents_ext; [|exact R2]. intros k. cbn beta. cbn [flat_map].
      rewrite <- app_assoc. f_equal. f_equal.
      now rewrite (Rp k), listOf_stored, Hman, bucketOf_entries.
    + destruct (Hloop allDeps L R Hnd) as [a2 [E2 [R2 Hnd2]]].
      exists a2. split; [assumption|]. split; [|assumption].
      eapply represents_ext; [|exact R2]. intros k. cbn beta. cbn [flat_map].
      rewrite bucketOf_entries.
      now rewrite (proj1 (hasManifest_buckets repo Hrepo) Hm k).
Qed.

Lemma responsesLoop_exact (responses : list GraphResponse) :
  forall (allDeps : AllDeps) (L : string -> list Repository),
    Forall namesEveryFile (flat_map getRepos responses) ->
    represents allDeps L -> NoDup (map_keys allDeps) ->
    exists allDeps',
      responsesLoop responses allDeps = Normal allDeps'
      /\ represents allDeps'
           (fun k => L k ++ flat_map (repositoryEntries k) (flat_map getRepos responses))
      /\ NoDup (map_keys allDeps').
Proof.
  induction responses as [|response responses IH]; intros allDeps L H R Hnd;
    cbn [responsesLoop].
  - exists allDeps. split; [reflexivity|]. split; [|assumption].
    eapply represents_ext; [|exact R]. intros k. cbn. now rewrite app_nil_r.
  - cbn [flat_map] in H. apply Forall_app in H. destruct H as [H1 H2].
    destruct (repos_exact (getRepos response) H1) as [objs [E Hloop]].
    rewrite E. cbn [bind].
    destruct (Hloop allDeps L R Hnd) as [a1 [E1 [R1 Hnd1]]].
    rewrite E1. cbn [bind].
    destruct (IH a1 _ H2 R1 Hnd1) as [a2 [E2 [R2 Hnd2]]].
    exists a2. split; [assumption|]. split; [|assumption].
    eapply represents_ext; [|exact R2]. intros k. cbn beta. cbn [flat_map].
    now rewrite flat_map_app, <- app_assoc.
Qed.

Lemma collect_exact (responses : list GraphResponse) :
  Forall namesEveryFile (flat_map getRepos responses) ->
  exists allDeps,
    collectDependencies responses = Normal allDeps
    /\ NoDup (map_keys allDeps)
    /\ represents allDeps
         (fun k => flat_map (repositoryEntries k) (flat_map getRepos responses)).
Proof.
  intros H. unfold collectDependencies.
  destruct (responsesLoop_exact responses [] (fun _ => []) H represents_empty
              ltac:(constructor)) as [a [E [R Hnd]]].
  exists a. split; [assumption|]. split; [assumption|]. exact R.
Qed.

(** X17.  From the successful responses the scrape builds, per manager,
    one entry for every manifest file with that manager's extension, of
    every repository that has a main or else a master branch, in the order
    of the responses, repositories and files; the entry is named after the
    repository followed by the file name in brackets.  A manager with no
    such file has no key. *)
Theorem collect_one_entry_per_manifest :
  forall responses : list GraphResponse,
    Forall namesEveryFile (flat_map getRepos responses) ->
    exists allDeps,
      collectDependencies responses = Normal allDeps
      /\ NoDup (map_keys allDeps)
      /\ (forall k, map_get k allDeps
                    = stored (flat_map (repositoryEntries k) (flat_map getRepos responses)))
      /\ (forall k repos entry,
            map_get k allDeps = Some repos -> In entry repos ->
            exists repo subPath,
              In repo (flat_map getRepos responses)
              /\ In subPath (nodes (dependencyGraphManifests (repository repo)))
              /\ name entry = (repoName (repository repo) ++ "(" ++ subPath ++ ")")%string
              /\ link entry = url (repository repo)).
Proof.
  intros responses H. destruct (collect_exact responses H) as [a [E [Hnd R]]].
  exists a. split; [assumption|]. split; [assumption|]. split; [exact R|].
  intros k repos entry Hget Hin. rewrite (R k) in Hget.
  apply stored_some in Hget. destruct Hget as [<- _].
  apply in_flat_map in Hin. destruct Hin as [repo [Hrepo Hentry]].
  unfold repositoryEntries in Hentry. destruct (extensionOf k) as [ext|]; [|destruct Hentry].
  apply in_map_iff in Hentry. destruct Hentry as [b [<- Hb]].
  unfold bucketFor in Hb. apply in_flat_map in Hb. destruct Hb as [[f n] [Hfn Hb]].
  cbn [fst snd] in Hb. destruct (endsWith n ext); [|destruct Hb].
  destruct Hb as [<-|[]].
  exists repo, n. split; [assumption|]. split; [now apply in_combine_r in Hfn|].
  split; reflexivity.
Qed.

(** X18.  After the merge, a package name is listed under a manager
    exactly when some manifest file with that manager's extension, of a
    repository with a main or else a master branch in a successful
    response, declares it among the dependencies kept for the file. *)
Theorem merged_names_come_from_manifests :
  forall responses : list GraphResponse,
    Forall namesEveryFile (flat_map getRepos responses) ->
    exists allDeps managerDeps,
      collectDependencies responses = Normal allDeps
      /\ mergeDependenciesLists allDeps = Normal managerDeps
      /\ forall k x,
           member k x managerDeps
           <-> exists repo entry dep,
                 In repo (flat_map getRepos responses)
                 /\ In entry (bucketOf k repo)
                 /\ In dep (bpDependencies entry)
                 /\ packageName dep = x.
Proof.
  intros responses H. destruct (collect_exact responses H) as [a [E [Hnd R]]].
  destruct (merge_spec a) as [md [Em [_ Hmem]]].
  exists a, md. split; [assumption|]. split; [assumption|].
  intros k x. rewrite Hmem. unfold declares. split.
  - intros [repos [r [Hin [Hr Hx]]]].
    apply (map_in_get _ _ _ Hnd) in Hin. rewrite (R k) in Hin.
    apply stored_some in Hin. destruct Hin as [<- _].
    apply in_flat_map in Hr. destruct Hr as [repo [Hrepo Hr]].
    rewrite bucketOf_entries in Hr. apply in_map_iff in Hr. destruct Hr as [b [<- Hb]].
    destruct (entry_keys (repository repo) b x) as [Hk _].
    apply Hk in Hx. apply in_map_iff in Hx. destruct Hx as [d [<- Hd]].
    exists repo, b, d. auto.
  - intros [repo [b [d [Hrepo [Hb [Hd <-]]]]]].
    assert (Hr : In (repositoryEntry (repository repo) b)
                    (flat_map (repositoryEntries k) (flat_map getRepos responses))).
    { apply in_flat_map. exists repo. split; [assumption|].
      rewrite bucketOf_entries. now apply in_map. }
    destruct (flat_map (repositoryEntries k) (flat_map getRepos responses))
      as [|r0 rs] eqn:F; [destruct Hr|].
    exists (r0 :: rs), (repositoryEntry (repository repo) b).
    split; [apply map_get_in; rewrite (R k), F; reflexivity|].
    split; [assumption|].
    apply (entry_keys (repository repo) b (packageName d)). now apply in_map.
Qed.

Lemma collect_one_entry_per_manifest_witness :
  exists allDeps,
    collectDependencies
      [[{| mainBranch := None;
           masterBranch := Some (repoOf appBase [readme; emptyManifest]
                                   ["README.md"; "package.json"]) |};
        {| mainBranch := None; masterBranch := None |}]]
    = Normal allDeps
    /\ map_get "NPM" allDeps
       = Some [{| name := "app(package.json)"; version := "";
                  link := "https://example.org/org/app"; isArchived := false;
                  dependencies := [] |}]
    /\ map_get "PYPI" allDeps = None.
Proof.
  destruct (collect_one_entry_per_manifest
              [[{| mainBranch := None;
                   masterBranch := Some (repoOf appBase [readme; emptyManifest]
                                           ["README.md"; "package.json"]) |};
                {| mainBranch := None; masterBranch := None |}]])
    as [a [E [_ [Hget _]]]].
  - repeat constructor.
  - exists a. split; [exact E|]. split; rewrite Hget; reflexivity.
Defined.

Lemma merged_names_come_from_manifests_witness :
  exists allDeps managerDeps,
    collectDependencies
      [[{| mainBranch :=
             Some (repoOf appBase
                     [{| blobPath := "/org/app/blob/main/package.json"; totalCount := 1;
                         dependencyNodes :=
                           [{| packageName := "left-pad"; requirements := "^1.0.0" |}] |}]
                     ["package.json"]);
           masterBranch := None |}]]
    = Normal allDeps
    /\ mergeDependenciesLists allDeps = Normal managerDeps
    /\ member "NPM" "left-pad" managerDeps.
Proof.
  destruct (merged_names_come_from_manifests
              [[{| mainBranch :=
                     Some (repoOf appBase
                             [{| blobPath := "/org/app/blob/main/package.json";
                                 totalCount := 1;
                                 dependencyNodes :=
                                   [{| packageName := "left-pad";
                                       requirements := "^1.0.0" |}] |}]
                             ["package.json"]);
                   masterBranch := None |}]])
    as [a [md [E [Em Hmem]]]].
  - repeat constructor.
  - exists a, md. split; [exact E|]. split; [exact Em|].
    apply Hmem. do 3 eexists. split; [left; reflexivity|].
    split; [left; reflexivity|]. split; [left; reflexivity | reflexivity].
Defined.

(** ** More on the batched fetch *)

Lemma settled_count (queryDependencies : Request -> completion GraphResponse)
    (requests : list Request) :
  List.length (fulfilled queryDependencies requests)
  + List.length (rejectedAnchors queryDependencies requests)
  = List.length requests.
Proof.
  unfold fulfilled, rejectedAnchors.
  induction requests as [|rq requests IH]; [reflexivity|]. cbn [flat_map].
  rewrite !length_app. destruct (queryDependencies rq); simpl; lia.
Qed.

(** X19.  Every request issued ends in exactly one of the two lists: the
    successes and the failed list together have as many elements as
    requests were issued, one per started group of [numOfPages] cursors,
    whatever the order in which they settle.  And every position of the
    cursor array belongs to the group of exactly one request. *)
Theorem fetch_settles_every_group_once :
  forall (repoCursors : list value) (requests order : list Request)
         (queryDependencies : Request -> completion GraphResponse),
    issueRequests repoCursors = Some requests ->
    Permutation order requests ->
    List.length (successfullResponses (settleAll queryDependencies repoCursors order))
    + List.length (failedResponses (settleAll queryDependencies repoCursors order))
    = groupCount (List.length repoCursors)
    /\ forall position,
         position < List.length repoCursors ->
         exists rq,
           In rq requests /\ covers rq position
           /\ forall rq', In rq' requests -> covers rq' position -> rq' = rq.
Proof.
  intros repoCursors requests order q Hissue Hperm.
  destruct (settleAll_spec q repoCursors requests order Hissue Hperm) as [Hs Hf].
  assert (Hn : numOfPages = 3) by reflexivity.
  rewrite issueRequests_spec in Hissue. injection Hissue as <-.
  split.
  - rewrite (Permutation_length Hs), (Permutation_length Hf), settled_count.
    now rewrite length_map, length_seq.
  - intros p Hp.
    assert (Hk : p / 3 < groupCount (List.length repoCursors)).
    { unfold groupCount. rewrite Hn.
      apply Nat.lt_le_trans with (S (p / 3)); [lia|].
      apply Nat.div_le_lower_bound; [lia|].
      pose proof (Nat.div_mod_eq p 3). pose proof (Nat.mod_upper_bound p 3). lia. }
    exists (requestAt repoCursors (p / 3 * numOfPages)). split; [|split].
    + apply in_map_iff. exists (p / 3). split; [reflexivity|].
      apply in_seq. lia.
    + unfold covers, requestAt. cbn [curCursorCopy]. rewrite Hn.
      pose proof (Nat.div_mod_eq p 3). pose proof (Nat.mod_upper_bound p 3). lia.
    + intros rq' Hin Hcov. apply in_map_iff in Hin. destruct Hin as [k [<- _]].
      unfold covers, requestAt in Hcov. cbn [curCursorCopy] in Hcov. rewrite Hn in Hcov.
      assert (k = p / 3); [|now subst k].
      pose proof (Nat.div_mod_eq p 3). pose proof (Nat.mod_upper_bound p 3). lia.
Qed.

Lemma fetch_settles_every_group_once_witness :
  List.length (successfullResponses
                 (settleAll secondRejects sevenCursors
                    [requestAt sevenCursors 3; requestAt sevenCursors 0;
                     requestAt sevenCursors 6]))
  + List.length (failedResponses
                   (settleAll secondRejects sevenCursors
                      [requestAt sevenCursors 3; requestAt sevenCursors 0;
                       requestAt sevenCursors 6]))
  = 3.
Proof.
  apply (fetch_settles_every_group_once sevenCursors
           [requestAt sevenCursors 0; requestAt sevenCursors 3; requestAt sevenCursors 6]
           [requestAt sevenCursors 3; requestAt sevenCursors 0; requestAt sevenCursors 6]
           secondRejects eq_refl).
  apply perm_swap.
Defined.

(** ** More on the paging loop *)

Lemma paginate_script_last (good : Script) :
  forall (fuel : nat) (s : PagerState ScriptWorld) (t0 t : Z) (page : OrgRepos)
         (later : Script),
    world s = (t0, good ++ (page, t) :: later) ->
    Forall continues good ->
    (MINIMUM_GITHUB_POINTS <= remaining (rateLimit page))%Z ->
    hasNextPage page = false ->
    List.length good < fuel ->
    exists fin,
      paginate ScriptWorld scriptQuery scriptNow fuel s = Returned fin
      /\ repoCursors fin = repoCursors s ++ cursorsOf (good ++ [(page, t)])
      /\ world fin = (t, later)
      /\ sent fin = sent s ++ repeat Null (S (List.length good)).
Proof.
  induction good as [|[p tp] good IH]; intros fuel s t0 t page later Hw Hgood Hq Hlast Hfuel.
  - destruct fuel as [|fuel]; [simpl in Hfuel; lia|].
    eexists. cbn [paginate]. unfold scriptQuery. rewrite Hw. cbn [snd app].
    apply Z.ltb_ge in Hq. rewrite Hq, Hlast. split; [reflexivity|].
    cbn [repoCursors world sent]. unfold cursorsOf. simpl.
    rewrite app_nil_r. repeat split.
  - destruct fuel as [|fuel]; [simpl in Hfuel; lia|].
    inversion Hgood as [|? ? Hp Hgood']; subst.
    rewrite (paginate_script_step fuel s t0 tp p (good ++ (page, t) :: later) Hw Hp).
    assert (Hfuel' : List.length good < fuel) by (simpl in Hfuel; lia).
    match goal with
    | |- context [paginate _ _ _ fuel ?s1] =>
        destruct (IH fuel s1 tp t page later eq_refl Hgood' Hq Hlast Hfuel')
          as [fin [Hrun [Hc [Hwf Hs]]]]
    end.
    exists fin. split; [exact Hrun|]. cbn [repoCursors sent] in Hc, Hs.
    split; [|split; [exact Hwf|]].
    + rewrite Hc. unfold cursorsOf. simpl. rewrite map_app, <- app_assoc. reflexivity.
    + rewrite Hs, <- app_assoc. reflexivity.
Qed.

(** X20.  Against a source that plays its pages in sequence, every page
    but the last announcing a next page and all of them with enough quota,
    the loop returns after one request per page with the cursors of all
    the pages in retrieval order; as strings, never [null]. *)
Theorem script_pages_concatenated :
  forall (good later : Script) (page : OrgRepos) (t start : Z) (fuel : nat),
    Forall continues good ->
    (MINIMUM_GITHUB_POINTS <= remaining (rateLimit page))%Z ->
    hasNextPage page = false ->
    List.length good < fuel ->
    exists fin,
      listCursors fuel start (good ++ (page, t) :: later) = Returned fin
      /\ repoCursors fin = cursorsOf (good ++ [(page, t)])
      /\ world fin = (t, later)
      /\ sent fin = repeat Null (S (List.length good))
      /\ ~ In Null (repoCursors fin).
Proof.
  intros good later page t start fuel Hgood Hq Hlast Hfuel.
  destruct (paginate_script_last good fuel
              (initial ScriptWorld (start, good ++ (page, t) :: later))
              start t page later eq_refl Hgood Hq Hlast Hfuel) as [fin [Hrun [Hc [Hw Hs]]]].
  exists fin. split; [exact Hrun|]. cbn [initial repoCursors sent app] in Hc, Hs.
  repeat split; try assumption.
  rewrite Hc. unfold cursorsOf. intros Hin. apply in_map_iff in Hin.
  destruct Hin as [c [C _]]. discriminate C.
Qed.

Lemma script_pages_concatenated_witness :
  exists fin,
    listCursors 4 0 ([(page1, 10%Z); (page1, 20%Z)] ++ (page2, 30%Z) :: []) = Returned fin
    /\ repoCursors fin = [Str "c1"; Str "c2"; Str "c1"; Str "c2"; Str "c3"].
Proof.
  destruct (script_pages_concatenated [(page1, 10%Z); (page1, 20%Z)] [] page2 30 0 4)
    as [fin [Hrun [Hc _]]].
  - repeat constructor; (vm_compute; discriminate) || reflexivity.
  - vm_compute; discriminate.
  - reflexivity.
  - simpl; lia.
  - exists fin. split; [exact Hrun | exact Hc].
Defined.

Lemma paginate_rejecting_step (e : error) (fuel : nat) (s : PagerState ScriptWorld)
    (t0 t : Z) (page : OrgRepos) (later : Script) :
  world s = (t0, (page, t) :: later) ->
  continues (page, t) ->
  paginate ScriptWorld (rejectingQuery e) scriptNow (S fuel) s
  = paginate ScriptWorld (rejectingQuery e) scriptNow fuel
      {| world := (t, later);
         repoCursors := repoCursors s ++ List.map Str (edgeCursors page);
         repoCursor := endCursor page;
         sent := sent s ++ [Null] |}.
Proof.
  intros Hw [Hq Hn]. simpl in Hq, Hn.
  cbn [paginate]. unfold rejectingQuery. rewrite Hw. cbn [snd].
  apply Z.ltb_ge in Hq. rewrite Hq, Hn. reflexivity.
Qed.

Lemma paginate_rejecting (e : error) (good : Script) :
  forall (fuel : nat) (s : PagerState ScriptWorld) (t0 : Z),
    world s = (t0, good) ->
    Forall continues good ->
    List.length good < fuel ->
    exists fin,
      paginate ScriptWorld (rejectingQuery e) scriptNow fuel s = Thrown e fin
      /\ repoCursors fin = repoCursors s ++ cursorsOf good
      /\ sent fin = sent s ++ repeat Null (S (List.length good)).
Proof.
  induction good as [|[p tp] good IH]; intros fuel s t0 Hw Hgood Hfuel.
  - destruct fuel as [|fuel]; [simpl in Hfuel; lia|].
    eexists. cbn [paginate]. unfold rejectingQuery. rewrite Hw. cbn [snd].
    split; [reflexivity|]. cbn [repoCursors sent]. unfold cursorsOf. simpl.
    now rewrite app_nil_r.
  - destruct fuel as [|fuel]; [simpl in Hfuel; lia|].
    inversion Hgood as [|? ? Hp Hgood']; subst.
    rewrite (paginate_rejecting_step e fuel s t0 tp p good Hw Hp).
    assert (Hfuel' : List.length good < fuel) by (simpl in Hfuel; lia).
    match goal with
    | |- context [paginate _ _ _ fuel ?s1] =>
        destruct (IH fuel s1 tp eq_refl Hgood' Hfuel') as [fin [Hrun [Hc Hs]]]
    end.
    exists fin. split; [exact Hrun|]. cbn [repoCursors sent] in Hc, Hs. split.
    + rewrite Hc. unfold cursorsOf. simpl. rewrite map_app, <- app_assoc. reflexivity.
    + rewrite Hs, <- app_assoc. reflexivity.
Qed.

(** X21.  A page request that rejects ends the loop at once with that
    very rejection, whatever it is: after pages that all announce a next
    page with enough quota, the loop throws the error the source rejected
    with, the rejected request is the last one made, there is no second
    attempt, and nothing is returned. *)
Theorem rejected_page_propagates :
  forall (e : error) (good : Script) (start : Z) (fuel : nat),
    Forall continues good ->
    List.length good < fuel ->
    exists fin,
      listCursorsUntil e fuel start good = Thrown e fin
      /\ repoCursors fin = cursorsOf good
      /\ sent fin = repeat Null (S (List.length good)).
Proof.
  intros e good start fuel Hgood Hfuel.
  destruct (paginate_rejecting e good fuel (initial ScriptWorld (start, good))
              start eq_refl Hgood Hfuel) as [fin [Hrun [Hc Hs]]].
  exists fin. split; [exact Hrun|]. split; assumption.
Qed.

Lemma rejected_page_propagates_witness :
  exists fin,
    listCursorsUntil (Rejected "socket hang up") 7 0 [(page1, 10%Z)]
    = Thrown (Rejected "socket hang up") fin
    /\ sent fin = [Null; Null].
Proof.
  destruct (rejected_page_propagates (Rejected "socket hang up") [(page1, 10%Z)] 0 7)
    as [fin [Hrun [_ Hs]]].
  - repeat constructor; (vm_compute; discriminate) || reflexivity.
  - simpl; lia.
  - exists fin. split; [exact Hrun | exact Hs].
Defined.

(** ** Resolving a list of names *)

Lemma firstRejection_some {A : Type} (order : list nat) (outcomes : list (completion A))
    (e : error) :
  firstRejection order outcomes = Some e ->
  exists i, In i order /\ nth_error outcomes i = Some (Throw e).
Proof.
  induction order as [|i order IH]; cbn [firstRejection]; [discriminate|].
  destruct (nth_error outcomes i) as [[a|e']|] eqn:E.
  - intros H. destruct (IH H) as [j [Hj Hn]]. exists j. split; [now right | assumption].
  - intros [= ->]. exists i. split; [now left | assumption].
  - intros H. destruct (IH H) as [j [Hj Hn]]. exists j. split; [now right | assumption].
Qed.

Lemma firstRejection_none {A : Type} (order : list nat) (outcomes : list (completion A)) :
  firstRejection order outcomes = None ->
  forall i e, In i order -> nth_error outcomes i <> Some (Throw e).
Proof.
  induction order as [|j order IH]; cbn [firstRejection]; intros H i e Hin; [destruct Hin|].
  destruct (nth_error outcomes j) as [[a|e']|] eqn:E; try discriminate H;
    (destruct Hin as [->|Hin]; [congruence | now apply IH]).
Qed.

Lemma firstRejection_clean {A : Type} (order : list nat) (outcomes : list (completion A)) :
  (forall i e, nth_error outcomes i <> Some (Throw e)) ->
  firstRejection order outcomes = None.
Proof.
  intros H. induction order as [|j order IH]; cbn [firstRejection]; [reflexivity|].
  destruct (nth_error outcomes j) as [[a|e']|] eqn:E; try assumption.
  exfalso. now apply (H j e').
Qed.

Lemma fillDepMap_spec (depList : list (string * string)) :
  forall acc : map_t string,
    NoDup (map_keys acc) ->
    NoDup (map_keys (fillDepMap depList acc))
    /\ forall p, map_get p (fillDepMap depList acc)
                 = match find (fun r => fst r =? p) (rev depList) with
                   | Some r => Some (snd r)
                   | None => map_get p acc
                   end.
Proof.
  induction depList as [|[n v] depList IH]; intros acc Hnd; cbn [fillDepMap].
  - split; [assumption | reflexivity].
  - destruct (IH (map_set n v acc) (map_set_keys_nodup _ _ _ Hnd)) as [Hnd' Hget].
    split; [assumption|]. intros p. rewrite Hget. cbn [rev]. rewrite find_snoc.
    destruct (find (fun r => fst r =? p) (rev depList)); [reflexivity|].
    cbn [fst snd]. destruct (n =? p) eqn:E.
    + apply String.eqb_eq in E. subst p. apply map_get_set_same.
    + apply String.eqb_neq in E. apply map_get_set_other. congruence.
Qed.

Section ResolveFacts.
(** One lookup per name, answering with the name it was asked for. *)
Variable query : string -> completion (string * string).
Hypothesis query_name : forall d r, query d = Normal r -> fst r = d.

Lemma resolve_rejects (dependencies : list string) (order : list nat) (d : string)
    (e : error) :
  Permutation order (seq 0 (List.length dependencies)) ->
  In d dependencies -> query d = Throw e ->
  exists e' d',
    promiseAll (List.map query dependencies) order = Throw e'
    /\ In d' dependencies /\ query d' = Throw e'.
Proof.
  intros Hperm Hin Hq. apply In_nth_error in Hin. destruct Hin as [i Hi].
  assert (Hout : nth_error (List.map query dependencies) i = Some (Throw e)).
  { rewrite nth_error_map, Hi. cbn. now rewrite Hq. }
  assert (Hord : In i order).
  { apply (Permutation_in i (Permutation_sym Hperm)). apply in_seq.
    assert (i < List.length dependencies) by (apply nth_error_Some; congruence). lia. }
  unfold promiseAll.
  destruct (firstRejection order (List.map query dependencies)) as [e'|] eqn:F.
  - destruct (firstRejection_some _ _ _ F) as [j [_ Hj]].
    rewrite nth_error_map in Hj.
    destruct (nth_error dependencies j) as [d'|] eqn:Ed; [|discriminate].
    cbn in Hj. injection Hj as Hj.
    exists e', d'. split; [reflexivity|]. split; [now apply nth_error_In in Ed | assumption].
  - exfalso. exact (firstRejection_none _ _ F i e Hord Hout).
Qed.

Lemma fulfilled_all (dependencies : list string) :
  (forall d, In d dependencies -> exists r, query d = Normal r) ->
  (forall i e, nth_error (List.map query dependencies) i <> Some (Throw e))
  /\ List.map fst (fulfilledValues (List.map query dependencies)) = dependencies
  /\ forall r, In r (fulfilledValues (List.map query dependencies)) ->
               query (fst r) = Normal r.
Proof.
  intros H. split; [|].
  - intros i e Hn. rewrite nth_error_map in Hn.
    destruct (nth_error dependencies i) as [d|] eqn:Ed; [|discriminate].
    cbn in Hn. injection Hn as Hn.
    destruct (H d (nth_error_In _ _ Ed)) as [r Hr]. congruence.
  - induction dependencies as [|d ds IH]; [split; [reflexivity | intros r []]|].
    destruct (H d (or_introl eq_refl)) as [r Hr].
    destruct IH as [IH1 IH2]; [intros d' Hd'; apply H; now right|].
    cbn [List.map fulfilledValues]. rewrite Hr. cbn [List.map]. split.
    + now rewrite (query_name d r Hr), IH1.
    + intros r' [<-|Hin]; [now rewrite (query_name d r Hr) | now apply IH2].
Qed.

Lemma resolve_fulfils (dependencies : list string) (order : list nat) :
  (forall d, In d dependencies -> exists r, query d = Normal r) ->
  exists depList,
    promiseAll (List.map query dependencies) order = Normal depList
    /\ NoDup (map_keys (fillDepMap depList []))
    /\ (forall d, In d (map_keys (fillDepMap depList [])) <-> In d dependencies)
    /\ forall d v, In d dependencies -> query d = Normal (d, v) ->
                   map_get d (fillDepMap depList []) = Some v.
Proof.
  intros H. destruct (fulfilled_all dependencies H) as [Hclean [Hnames Hvals]].
  exists (fulfilledValues (List.map query dependencies)).
  unfold promiseAll. rewrite (firstRejection_clean order _ Hclean).
  split; [reflexivity|].
  set (l := fulfilledValues (List.map query dependencies)) in *.
  destruct (fillDepMap_spec l [] ltac:(constructor)) as [Hnd Hget].
  split; [assumption|].
  assert (Hfind : forall d, In d dependencies ->
                    exists r, find (fun r => fst r =? d) (rev l) = Some r
                              /\ query d = Normal r).
  { intros d Hd. rewrite <- Hnames in Hd. apply in_map_iff in Hd.
    destruct Hd as [r [Hfst Hr]].
    destruct (find (fun r => fst r =? d) (rev l)) as [r'|] eqn:F.
    - exists r'. split; [reflexivity|]. apply find_some in F. destruct F as [Hin Heq].
      apply String.eqb_eq in Heq. rewrite <- Heq. apply Hvals. now apply in_rev.
    - exfalso. assert (Hrev : In r (rev l)) by (now apply -> in_rev).
      pose proof (find_none _ _ F r Hrev) as C. cbn beta in C.
      rewrite Hfst, String.eqb_refl in C. discriminate C. }
  split.
  - intros d. split.
    + intros Hin. destruct (map_get d (fillDepMap l [])) eqn:E.
      * rewrite Hget in E.
        destruct (find (fun r => fst r =? d) (rev l)) as [r|] eqn:F; [|discriminate].
        apply find_some in F. destruct F as [Hr Heq]. apply String.eqb_eq in Heq.
        rewrite <- Hnames, <- Heq. apply in_map. now apply in_rev.
      * now apply map_get_none_keys in E.
    + intros Hd. destruct (Hfind d Hd) as [r [F _]].
      destruct (map_get d (fillDepMap l [])) eqn:E.
      * apply map_get_in in E. change d with (fst (d, s)). now apply in_map.
      * rewrite Hget, F in E. discriminate E.
  - intros d v Hd Hq. destruct (Hfind d Hd) as [r [F Hr]].
    rewrite Hget, F. assert (r = (d, v)) by congruence. now subst r.
Qed.
End ResolveFacts.

Lemma queryNpm_name (getPackageManifest : string -> completion string) (d : string)
    (r : string * string) :
  queryDependenyNpm getPackageManifest d = Normal r -> fst r = d.
Proof.
  unfold queryDependenyNpm. destruct (getPackageManifest d); cbn [bind]; [|discriminate].
  now intros [= <-].
Qed.

Lemma queryPyPI_name (fetchReleases : string -> completion (list string)) (d : string)
    (r : string * string) :
  queryDependencyPyPIFor fetchReleases d = Normal r -> fst r = d.
Proof.
  unfold queryDependencyPyPIFor. destruct (fetchReleases d) as [rs|]; cbn [bind];
    [|discriminate].
  destruct (queryDependencyPyPI rs); cbn [bind]; [|discriminate].
  now intros [= <-].
Qed.

Lemma parse_total (s : string) :
  s <> "!" -> exists v, parsePythonPackageVersion s = Normal v.
Proof.
  intros Hne. destruct (occurs "!" s) eqn:O.
  - assert (Hlen : List.length (split_limit "!" 2 s) = 2).
    { unfold split_limit, split. rewrite length_firstn.
      pose proof (split_go_present "!" s "" O). lia. }
    unfold parsePythonPackageVersion. rewrite Hlen. cbn [Nat.eqb].
    destruct s as [|a [|b s]].
    + discriminate O.
    + cbn [occurs] in O. destruct (Ascii.eqb a "!") eqn:E; [|discriminate].
      apply Ascii.eqb_eq in E. now subst a.
    + eexists. reflexivity.
  - rewrite (parse_no_separator s O). eauto.
Qed.

Lemma bestVersionLoop_total (releases : list string) :
  forall (b : string) (bo : PythonPackageVersion),
    ~ In "!" releases -> exists st, bestVersionLoop releases b bo = Normal st.
Proof.
  induction releases as [|r releases IH]; intros b bo H; cbn [bestVersionLoop]; [eauto|].
  destruct (parse_total r) as [v Hv]; [intros ->; apply H; now left|].
  rewrite Hv. cbn [bind].
  destruct (greaterThanPythonPackageVersion v bo); apply IH; intros C; apply H; now right.
Qed.




(** X23.  When the lookup of every name succeeds, the npm resolution
    returns a map with exactly the names asked for as keys, each once,
    and under each name the version its lookup answered, whatever the
    order in which the lookups settle. *)
Theorem npm_resolution_maps_every_name :
  forall (getPackageManifest : string -> completion string)
         (dependencies : list string) (order : list nat),
    (forall d, In d dependencies -> exists v, getPackageManifest d = Normal v) ->
    exists depMap,
      getDependenciesNpm getPackageManifest dependencies order = Normal depMap
      /\ NoDup (map_keys depMap)
      /\ (forall d, In d (map_keys depMap) <-> In d dependencies)
      /\ forall d v, In d dependencies -> getPackageManifest d = Normal v ->
                     map_get d depMap = Some v.
Proof.
  intros npm deps order H.
  destruct (resolve_fulfils (queryDependenyNpm npm) (queryNpm_name npm) deps order)
    as [l [Hall [Hnd [Hkeys Hget]]]].
  { intros d Hd. destruct (H d Hd) as [v Hv]. exists (d, v).
    unfold queryDependenyNpm. now rewrite Hv. }
  exists (fillDepMap l []). unfold getDependenciesNpm. rewrite Hall.
  split; [reflexivity|]. split; [assumption|]. split; [assumption|].
  intros d v Hd Hv. apply Hget; [assumption|].
  unfold queryDependenyNpm. now rewrite Hv.
Qed.

Lemma npm_resolution_maps_every_name_witness :
  exists depMap,
    getDependenciesNpm (fun _ => Normal "1.3.0") ["left-pad"; "lodash"] [1; 0]
    = Normal depMap
    /\ map_get "left-pad" depMap = Some "1.3.0".
Proof.
  destruct (npm_resolution_maps_every_name (fun _ => Normal "1.3.0")
              ["left-pad"; "lodash"] [1; 0]) as [m [E [_ [_ Hget]]]].
  - intros d _. exists "1.3.0". reflexivity.
  - exists m. split; [exact E|]. apply Hget; [left|]; reflexivity.
Defined.

(** X24.  When the release lookup of every name succeeds and no release
    key is the string ["!"], the PyPI resolution returns a map with
    exactly the names asked for as keys, each once, and under each name
    the version selected among its releases: one of them, or "0" for a
    package without releases. *)
Theorem pypi_resolution_maps_every_name :
  forall (fetchReleases : string -> completion (list string))
         (dependencies : list string) (order : list nat),
    (forall d, In d dependencies ->
       exists releases, fetchReleases d = Normal releases /\ ~ In "!" releases) ->
    exists depMap,
      getDependenciesPyPI fetchReleases dependencies order = Normal depMap
      /\ NoDup (map_keys depMap)
      /\ (forall d, In d (map_keys depMap) <-> In d dependencies)
      /\ forall d releases, In d dependencies -> fetchReleases d = Normal releases ->
           exists best,
             queryDependencyPyPI releases = Normal best
             /\ map_get d depMap = Some best
             /\ ((releases = [] /\ best = "0") \/ In best releases).
Proof.
  intros pypi deps order H.
  assert (Hsel : forall d, In d deps ->
                   exists releases best,
                     pypi d = Normal releases
                     /\ queryDependencyPyPI releases = Normal best).
  { intros d Hd. destruct (H d Hd) as [rs [Hrs Hbang]].
    destruct (bestVersionLoop_total rs "0" sentinel Hbang) as [st Hst].
    exists rs, (fst st). split; [assumption|].
    unfold queryDependencyPyPI. now rewrite Hst. }
  destruct (resolve_fulfils (queryDependencyPyPIFor pypi) (queryPyPI_name pypi) deps order)
    as [l [Hall [Hnd [Hkeys Hget]]]].
  { intros d Hd. destruct (Hsel d Hd) as [rs [best [Hrs Hbest]]]. exists (d, best).
    unfold queryDependencyPyPIFor. rewrite Hrs. cbn [bind]. now rewrite Hbest. }
  exists (fillDepMap l []). unfold getDependenciesPyPI. rewrite Hall.
  split; [reflexivity|]. split; [assumption|]. split; [assumption|].
  intros d rs Hd Hrs. destruct (Hsel d Hd) as [rs' [best [Hrs' Hbest]]].
  assert (rs' = rs) by congruence; subst rs'.
  exists best. split; [assumption|]. split.
  - apply Hget; [assumption|].
    unfold queryDependencyPyPIFor. rewrite Hrs. cbn [bind]. now rewrite Hbest.
  - destruct (selection_member rs best Hbest) as [Hempty|[Hin _]]; [now left | now right].
Qed.

Lemma pypi_resolution_maps_every_name_witness :
  exists depMap,
    getDependenciesPyPI (fun _ => Normal ["1.0.0"; "1.1.0a1"]) ["requests"] [0]
    = Normal depMap
    /\ map_get "requests" depMap = Some "1.0.0".
Proof.
  destruct (pypi_resolution_maps_every_name (fun _ => Normal ["1.0.0"; "1.1.0a1"])
              ["requests"] [0]) as [m [E [_ [_ Hget]]]].
  - intros d _. exists ["1.0.0"; "1.1.0a1"]. split; [reflexivity|].
    intros [C|[C|[]]]; discriminate C.
  - exists m. split; [exact E|].
    destruct (Hget "requests" ["1.0.0"; "1.1.0a1"] (or_introl eq_refl) eq_refl)
      as [best [Hbest [Hmap _]]].
    vm_compute in Hbest. injection Hbest as <-. exact Hmap.
Defined.


(** ** The run as a whole *)

Lemma merged_key_declares (allDeps : AllDeps) (md : map_t (list string)) :
  mergeDependenciesLists allDeps = Normal md ->
  forall k names, map_get k md = Some names -> exists x, In x names /\ declares allDeps k x.
Proof.
  intros Em k names Hk. destruct (merge_spec allDeps) as [md' [Em' [[_ Hsets] Hmem]]].
  assert (md' = md) by congruence; subst md'.
  destruct (Hsets k names Hk) as [_ Hne]. destruct names as [|x names]; [congruence|].
  exists x. split; [now left|]. apply Hmem. exists (x :: names). split; [assumption | now left].
Qed.

(** X25.  When no manifest declares any dependency, no registry is
    consulted and the run cannot fail: the document is written whatever
    the registries would answer, and for each manager that has manifests
    the tree printer receives the entries together with [null] in place
    of a resolution map.  With no manifest at all both arrays of the
    document are empty. *)
Theorem main_without_dependencies :
  forall (getPackageManifest : string -> completion string)
         (fetchReleases : string -> completion (list string))
         (npmOrder pypiOrder : list nat)
         (generateDependencyTree : list Repository -> option (map_t string) -> string)
         (allDeps : AllDeps),
    (forall k x, ~ declares allDeps k x) ->
    mainDocument getPackageManifest fetchReleases npmOrder pypiOrder
      generateDependencyTree allDeps
    = Normal (documentOf generateDependencyTree allDeps None None)
    /\ (allDeps = [] ->
        documentOf generateDependencyTree allDeps None None
        = ("{" ++ dq ++ "npm" ++ dq ++ ": [], " ++ dq ++ "PyPI" ++ dq ++ ": []}")%string).
Proof.
  intros npm pypi no po gen allDeps Hnone. split.
  - destruct (merge_spec allDeps) as [md [Em _]].
    assert (Hk : forall k, map_get k md = None).
    { intros k. destruct (map_get k md) as [names|] eqn:E; [|reflexivity].
      destruct (merged_key_declares allDeps md Em k names E) as [x [_ Hx]].
      now apply Hnone in Hx. }
    unfold mainDocument. rewrite Em. cbn [bind]. rewrite (Hk "NPM"), (Hk "PYPI").
    reflexivity.
  - intros ->. reflexivity.
Qed.

Lemma main_without_dependencies_witness :
  mainDocument (fun _ => Throw (Rejected "offline")) (fun _ => Throw (Rejected "offline"))
    [] [] (fun _ _ => "tree")
    [("NPM", [{| name := "app(package.json)"; version := ""; link := "";
                 isArchived := false; dependencies := [] |}])]
  = Normal ("{" ++ dq ++ "npm" ++ dq ++ ": [tree], " ++ dq ++ "PyPI" ++ dq ++ ": []}")%string.
Proof.
  apply (proj1 (main_without_dependencies
                  (fun _ => Throw (Rejected "offline")) (fun _ => Throw (Rejected "offline"))
                  [] [] (fun _ _ => "tree")
                  [("NPM", [{| name := "app(package.json)"; version := ""; link := "";
                               isArchived := false; dependencies := [] |}])]
                  ltac:(intros k x [repos [repo [[[= <- <-]|[]] [[<-|[]] []]]]]))).
Defined.

(** X26.  A rejected lookup is fatal to the run: when the lookup of one
    merged npm name rejects, or that of one merged PyPI name, no document
    is produced at all. *)
Theorem main_fails_when_a_lookup_rejects :
  forall (getPackageManifest : string -> completion string)
         (fetchReleases : string -> completion (list string))
         (npmOrder pypiOrder : list nat)
         (generateDependencyTree : list Repository -> option (map_t string) -> string)
         (allDeps : AllDeps) (managerDeps : map_t (list string))
         (names : list string) (d : string) (e : error),
    mergeDependenciesLists allDeps = Normal managerDeps ->
    In d names ->
    (map_get "NPM" managerDeps = Some names /\ getPackageManifest d = Throw e
     /\ Permutation npmOrder (seq 0 (List.length names)))
    \/ (map_get "PYPI" managerDeps = Some names /\ fetchReleases d = Throw e
        /\ Permutation pypiOrder (seq 0 (List.length names))) ->
    exists e',
      mainDocument getPackageManifest fetchReleases npmOrder pypiOrder
        generateDependencyTree allDeps
      = Throw e'.
Proof.
  intros npm pypi no po gen allDeps md names d e Em Hd H.
  unfold mainDocument. rewrite Em. cbn [bind].
  destruct H as [[Hk [Hrej Hperm]]|[Hk [Hrej Hperm]]].
  - rewrite Hk.
    destruct (resolve_rejects (queryDependenyNpm npm) names no d e Hperm Hd)
      as [e' [_ [Hall _]]].
    { unfold queryDependenyNpm. now rewrite Hrej. }
    exists e'. unfold getDependenciesNpm. rewrite Hall. reflexivity.
  - match goal with
    | |- exists _, bind ?c _ = _ => destruct c as [npmMap|e0]; cbn [bind]; [|eauto]
    end.
    rewrite Hk.
    destruct (resolve_rejects (queryDependencyPyPIFor pypi) names po d e Hperm Hd)
      as [e' [_ [Hall _]]].
    { unfold queryDependencyPyPIFor. now rewrite Hrej. }
    exists e'. unfold getDependenciesPyPI. rewrite Hall. reflexivity.
Qed.

Lemma main_fails_when_a_lookup_rejects_witness :
  exists e',
    mainDocument (fun _ => Throw (Rejected "offline")) (fun _ => Normal [])
      [0; 1] [] (fun _ _ => "tree") [("NPM", [leftPadUser])]
    = Throw e'.
Proof.
  apply (main_fails_when_a_lookup_rejects
           (fun _ => Throw (Rejected "offline")) (fun _ => Normal [])
           [0; 1] [] (fun _ _ => "tree") [("NPM", [leftPadUser])]
           [("NPM", ["left-pad"; "lodash"])] ["left-pad"; "lodash"] "left-pad"
           (Rejected "offline") eq_refl (or_introl eq_refl)).
  left. split; [reflexivity|]. split; [reflexivity|]. apply Permutation_refl.
Defined.



(** ** Malformed release strings in the selection *)








